(** * KINESO: the kinematics core of [resources/js/kinematics.js]

    A shallow embedding of the numerical functions of the module
    ([computeKinematics], the three differentiators, the two integrators,
    [csvFromData] and [applyDragSync]) together with the part of the
    ECMAScript runtime they rely on.

    JavaScript numbers are IEEE 754 binary64 values; they are modelled by
    Rocq's primitive floats, whose operations are the same correctly rounded
    binary64 operations.  Arrays are lists of values in which a hole reads
    as [undefined].

    The specification names the functions differently:
    - generate is [computeKinematics];
    - velocityFromPosition, accelerationFromPosition and
      accelerationFromVelocity are [computeVFromX], [computeAFromX] and
      [computeAFromV];
    - positionFromVelocity and velocityFromAcceleration are [integrateVToX]
      and [integrateAToV];
    - applyEdit is [applyDragSync]; positions, velocities and accelerations
      are the arrays [xs], [vs] and [as_] ([as] in the source). *)

From Stdlib Require Import ZArith Floats String Ascii DecimalString Lia.
From stdpp Require Import base option list.

Set Warnings "-inexact-float".
Set Default Proof Using "Type".

Open Scope Z_scope.

(** ** The ECMAScript runtime used by the module *)

Module JS.

(** *** Values and arrays *)

(** What an array slot of the module can hold: a number, or nothing (a hole
    or an index past the end, both of which read as [undefined]). *)
Inductive value : Type :=
| Undefined
| Num (x : float).

(** An array of the module: its slots in index order. *)
Abbreviation array := (list value).

(** [ToNumber]: [undefined] becomes NaN in an arithmetic context. *)
Definition ToNumber (v : value) : float :=
  match v with
  | Undefined => nan
  | Num x => x
  end.

(** [a[i]]: an index that is negative or past the end reads [undefined]. *)
Definition get (a : array) (i : Z) : value :=
  if i <? 0 then Undefined else default Undefined (a !! Z.to_nat i).

(** [a[i]] used as an operand of an arithmetic operator. *)
Definition getn (a : array) (i : Z) : float := ToNumber (get a i).

(** [new Array(n)]: [n] holes. *)
Definition new_Array (n : nat) : array := replicate n Undefined.

(** [a[i] = v] for an array index [i]: inside the array the slot is
    overwritten, at or past the end the array grows to length [i + 1] and
    the slots in between are holes. *)
Definition set (a : array) (i : nat) (v : value) : array :=
  if (i <? length a)%nat then <[i := v]> a
  else a ++ replicate (i - length a) Undefined ++ [v].

(** [a.push(v)] *)
Definition push (a : array) (v : value) : array := a ++ [v].

(** [a.splice(start, deleteCount, ...items)], as an update of [a]. *)
Definition splice (a : array) (start deleteCount : nat) (items : array) : array :=
  take start a ++ items ++ drop (start + deleteCount) a.

(** [for (let i = lo; i < hi; i++) body], the loop state threaded through. *)
Fixpoint for_count {S : Type} (count i : nat) (body : nat -> S -> S) (s : S) : S :=
  match count with
  | O => s
  | Datatypes.S count' => for_count count' (Datatypes.S i) body (body i s)
  end.

Definition for_range {S : Type} (lo hi : nat) (body : nat -> S -> S) (s : S) : S :=
  for_count (hi - lo) lo body s.

(** *** Numbers and strings *)

Definition digits (n : Z) : string :=
  NilZero.string_of_uint (N.to_uint (Z.to_N n)).

Fixpoint zeros (k : nat) : string :=
  match k with
  | O => EmptyString
  | S k' => String "0" (zeros k')
  end.

(** First [k] code units of a string, and the rest. *)
Fixpoint str_take (k : nat) (s : string) : string :=
  match k, s with
  | S k', String c s' => String c (str_take k' s')
  | _, _ => EmptyString
  end.

Fixpoint str_drop (k : nat) (s : string) : string :=
  match k, s with
  | S k', String _ s' => str_drop k' s'
  | _, _ => s
  end.

(** The integer nearest to [m * 2^e * 10^f], the larger one on a tie. *)
Definition scaled_nearest (m : positive) (e : Z) (f : nat) : Z :=
  let p := 10 ^ Z.of_nat f in
  if 0 <=? e then Z.pos m * 2 ^ e * p
  else let d := 2 ^ (- e) in (2 * Z.pos m * p + d) / (2 * d).

(** Whether [m * 2^e >= 10^21]. *)
Definition at_least_1e21 (m : positive) (e : Z) : bool :=
  if 0 <=? e then 10 ^ 21 <=? Z.pos m * 2 ^ e
  else 10 ^ 21 * 2 ^ (- e) <=? Z.pos m.

(** Whether the binary64 value nearest to the integer [v] is [m * 2^e]
    (ties to even); [v] and [m * 2^e] are integers, [e >= 2]. *)
Definition rounds_to (m : positive) (e : Z) (v : Z) : bool :=
  let u := 2 ^ (e - 2) in
  let lo := (if (Z.pos m =? 2 ^ 52) then 4 * Z.pos m - 1 else 4 * Z.pos m - 2) * u in
  let hi := (4 * Z.pos m + 2) * u in
  if Z.even (Z.pos m) then (lo <=? v) && (v <=? hi) else (lo <? v) && (v <? hi).

(** Number of decimal digits of a positive integer. *)
Definition ndigits (v : Z) : nat := String.length (digits v).

(** [Number::toString] for a finite [x = m * 2^e >= 10^21]: the shortest
    digit string [s] (of [k] digits) with [s * 10^(n-k)] rounding to [x],
    nearest to [x] among those of that length, printed in exponent form. *)
Fixpoint shortest (fuel k : nat) (m : positive) (e : Z) : Z * nat * nat :=
  let x := Z.pos m * 2 ^ e in
  let n := ndigits x in
  let p := 10 ^ Z.of_nat (n - k) in
  let lo := x / p in
  let hi := lo + 1 in
  let oklo := rounds_to m e (lo * p) in
  let okhi := rounds_to m e (hi * p) in
  let pick_hi :=
    okhi && (negb oklo || (hi * p - x <? x - lo * p)
             || ((hi * p - x =? x - lo * p) && Z.even hi)) in
  match fuel with
  | O => (x, n, n)
  | S fuel' =>
    if oklo || okhi then
      if pick_hi then
        if hi =? 10 ^ Z.of_nat k then (10 ^ Z.of_nat (k - 1), k, S n) else (hi, k, n)
      else (lo, k, n)
    else shortest fuel' (S k) m e
  end.

Definition toString_1e21 (m : positive) (e : Z) : string :=
  let '(s, k, n) := shortest 17 1 m e in
  let ds := digits s in
  let mant :=
    match k with
    | 1%nat => ds
    | _ => (str_take 1 ds ++ "." ++ str_drop 1 ds)%string
    end in
  (mant ++ "e+" ++ digits (Z.of_nat n - 1))%string.

(** [Number.prototype.toFixed(f)] for [0 <= f <= 100]. *)
Definition toFixed (x : float) (f : nat) : string :=
  (match Prim2SF x with
  | S754_nan => "NaN"
  | S754_infinity false => "Infinity"
  | S754_infinity true => "-Infinity"
  | S754_zero _ =>
    match f with
    | O => "0"
    | _ => "0." ++ zeros f
    end
  | S754_finite sgn m e =>
    let s := if sgn then "-" else "" in
    if at_least_1e21 m e then s ++ toString_1e21 m e
    else
      let n := scaled_nearest m e f in
      let ds := digits n in
      match f with
      | O => s ++ ds
      | _ =>
        let ds := zeros (S f - String.length ds) ++ ds in
        let k := String.length ds in
        s ++ str_take (k - f) ds ++ "." ++ str_drop (k - f) ds
      end
  end)%string.

(** First code unit of [s] that satisfies [p]: what precedes it and what
    follows. *)
Fixpoint str_split (p : ascii -> bool) (s : string) : string * option string :=
  match s with
  | EmptyString => (EmptyString, None)
  | String d s' =>
    if p d then (EmptyString, Some s')
    else let '(l, r) := str_split p s' in (String d l, r)
  end.

(** The binary64 value nearest to [n * 10^p] (ties to even), signed. *)
Definition of_decimal (neg : bool) (n : N) (p : Z) : float :=
  SF2Prim
    match n with
    | N0 => S754_zero neg
    | Npos m =>
      if 0 <=? p then binary_round prec emax neg (Z.to_pos (Z.pos m * 10 ^ p)) 0
      else SFdiv prec emax (S754_finite neg m 0) (S754_finite false (Z.to_pos (10 ^ (- p))) 0)
    end.

(** An optionally signed run of decimal digits (an exponent). *)
Definition parse_exponent (s : string) : option Z :=
  let '(neg, ds) :=
    match s with
    | String "-" r => (true, r)
    | String "+" r => (false, r)
    | _ => (false, s)
    end in
  match ds with
  | EmptyString => None
  | _ => (fun u => let z := Z.of_N (N.of_uint u) in if neg then - z else z)
           <$> NilEmpty.uint_of_string ds
  end.

(** [Number(s)] for a string: the decimal literals
    [digits[.digits][e[+-]digits]], [Infinity], an optional sign, and the
    empty string; anything else is NaN.  (White space and the hexadecimal,
    octal and binary literals of the full grammar are not covered; the
    strings [toFixed] produces need none of them.)  The value is the
    binary64 number nearest to the decimal, whatever the number of digits. *)
Definition Number (s : string) : float :=
  match s with
  | EmptyString => PrimFloat.zero
  | _ =>
    let '(neg, body) :=
      match s with
      | String "-" r => (true, r)
      | String "+" r => (false, r)
      | _ => (false, s)
      end in
    if String.eqb body "Infinity" then (if neg then PrimFloat.neg_infinity else PrimFloat.infinity)
    else
      let '(mant, ex) := str_split (fun c => Ascii.eqb c "e" || Ascii.eqb c "E") body in
      let '(ip, fp) := str_split (Ascii.eqb ".") mant in
      let fp := default EmptyString fp in
      match (ip ++ fp)%string, NilEmpty.uint_of_string (ip ++ fp)%string,
            from_option parse_exponent (Some 0) ex with
      | String _ _, Some u, Some e =>
        of_decimal neg (N.of_uint u) (e - Z.of_nat (String.length fp))
      | _, _, _ => nan
      end
  end.

End JS.

(** ** The kinematics helpers of the module *)

Import JS.

(** The four parallel arrays, as [computeKinematics] returns them and as the
    page state holds them. *)
Record Samples : Type := {
  times : array;
  xs : array;
  vs : array;
  as_ : array;
}.

Section computeKinematics.
Variables (x0 v0 a t1 dt : float) (maxPoints : Z).

(** The four [push]es of the loop body at the instant [t]. *)
Definition sample (t : float) (r : Samples) : Samples :=
  let x := (x0 + v0 * t + 0.5 * a * t * t)%float in
  let v := (v0 + a * t)%float in
  {| times := push (times r) (Num (Number (toFixed t 8)));
     xs := push (xs r) (Num (Number (toFixed x 8)));
     vs := push (vs r) (Num (Number (toFixed v 8)));
     as_ := push (as_ r) (Num (Number (toFixed a 8))) |}.

(** [for (let t = t0; t <= t1 + 1e-12; t += dt) { ...; if (times.length >=
    maxPoints) break; }], one iteration per unit of fuel; [None] when the
    fuel runs out before the loop ends. *)
Fixpoint sampling (fuel : nat) (t : float) (r : Samples) : option Samples :=
  match fuel with
  | O => None
  | S fuel' =>
    if (t <=? t1 + 1e-12)%float then
      let r' := sample t r in
      if maxPoints <=? Z.of_nat (length (times r')) then Some r'
      else sampling fuel' (t + dt)%float r'
    else Some r
  end.
End computeKinematics.

(** The value of the parameter [maxPoints] when the caller leaves it out. *)
Definition maxPoints_default : Z := 1000.

(** [computeKinematics(x0, v0, a, t0, t1, dt, maxPoints)].  [maxPoints] is a
    count of points and is taken as an integer; [fuel] bounds the number of
    iterations of the loop. *)
Definition computeKinematics (fuel : nat) (x0 v0 a t0 t1 dt : float) (maxPoints : Z)
  : option Samples :=
  let r := {| times := []; xs := []; vs := []; as_ := [] |} in
  if (dt <=? 0)%float then Some r
  else sampling x0 v0 a t1 dt maxPoints fuel t0 r.

(** [a.[i]] is the number read by [a[i]] inside an arithmetic expression. *)
Notation "a .[ i ]" := (getn a i%Z)
  (at level 1, left associativity, format "a .[ i ]") : float_scope.

(** Central differences inside, forward and backward differences at the two
    ends. *)
Definition computeVFromX (xs : array) (dt : float) : array :=
  let n := Z.of_nat (length xs) in
  for_range 0 (length xs) (fun k vs =>
    let i := Z.of_nat k in
    if i =? 0 then set vs k (Num ((xs.[1] - xs.[0]) / dt)%float)
    else if i =? n - 1 then set vs k (Num ((xs.[n - 1] - xs.[n - 2]) / dt)%float)
    else set vs k (Num ((xs.[i + 1] - xs.[i - 1]) / (2 * dt))%float))
  (new_Array (length xs)).

(** Second differences. *)
Definition computeAFromX (xs : array) (dt : float) : array :=
  let n := Z.of_nat (length xs) in
  for_range 0 (length xs) (fun k as_ =>
    let i := Z.of_nat k in
    if i =? 0 then
      set as_ k (Num ((xs.[2] - 2 * xs.[1] + xs.[0]) / (dt * dt))%float)
    else if i =? n - 1 then
      set as_ k (Num ((xs.[n - 1] - 2 * xs.[n - 2] + xs.[n - 3]) / (dt * dt))%float)
    else
      set as_ k (Num ((xs.[i + 1] - 2 * xs.[i] + xs.[i - 1]) / (dt * dt))%float))
  (new_Array (length xs)).

Definition computeAFromV (vs : array) (dt : float) : array :=
  let n := Z.of_nat (length vs) in
  for_range 0 (length vs) (fun k as_ =>
    let i := Z.of_nat k in
    if i =? 0 then set as_ k (Num ((vs.[1] - vs.[0]) / dt)%float)
    else if i =? n - 1 then set as_ k (Num ((vs.[n - 1] - vs.[n - 2]) / dt)%float)
    else set as_ k (Num ((vs.[i + 1] - vs.[i - 1]) / (2 * dt))%float))
  (new_Array (length vs)).

(** Trapezoidal rule. *)
Definition integrateVToX (vs : array) (x0 dt : float) : array :=
  let xs := set (new_Array (length vs)) 0 (Num x0) in
  for_range 1 (length vs) (fun k xs =>
    let i := Z.of_nat k in
    set xs k (Num (xs.[i - 1] + 0.5 * (vs.[i - 1] + vs.[i]) * dt)%float))
  xs.

(** Euler steps. *)
Definition integrateAToV (as_ : array) (v0 dt : float) : array :=
  let vs := set (new_Array (length as_)) 0 (Num v0) in
  for_range 1 (length as_) (fun k vs =>
    let i := Z.of_nat k in
    set vs k (Num (vs.[i - 1] + as_.[i - 1] * dt)%float))
  vs.

(** *** CSV export *)

Definition LF : string := String "010" EmptyString.

(** [r.join(sep)] on an array of strings. *)
Definition join (sep : string) (r : list string) : string := String.concat sep r.

(** [v.toFixed(f)]: a [TypeError] ([None]) when [v] is [undefined]. *)
Definition value_toFixed (v : value) (f : nat) : option string :=
  match v with
  | Undefined => None
  | Num x => Some (toFixed x f)
  end.

Definition csv_header : list string :=
  ["t (s)"; "x (m)"; "v (m/s)"; "a (m/s^2)"]%string.

(** The rows collected by the loop of [csvFromData]; [None] once a
    [toFixed] has thrown. *)
Definition csv_lines (times xs vs as_ : array) : option (list (list string)) :=
  for_range 0 (length times) (fun k lines =>
    let i := Z.of_nat k in
    ls ← lines;
    t ← value_toFixed (get times i) 6;
    x ← value_toFixed (get xs i) 6;
    v ← value_toFixed (get vs i) 6;
    a ← value_toFixed (get as_ i) 6;
    Some (ls ++ [[t; x; v; a]]))
  (Some [csv_header]).

Definition csvFromData (times xs vs as_ : array) : option string :=
  lines ← csv_lines times xs vs as_;
  Some (join LF (map (join ",") lines)).

(** *** The page state and the drag update *)

(** The fields of the page state that the computation uses: the four arrays
    and the scalars [x0], [v0], [dt].  The four arrays are four distinct
    objects ([computeKinematics] allocates them), so an update of one leaves
    the other three as they are. *)
Record State : Type := {
  arrays :> Samples;
  x0 : float;
  v0 : float;
  dt : float;
}.

Definition upd_xs (a : array) (s : State) : State :=
  {| arrays := {| times := times s; xs := a; vs := vs s; as_ := as_ s |};
     x0 := x0 s; v0 := v0 s; dt := dt s |}.

Definition upd_vs (a : array) (s : State) : State :=
  {| arrays := {| times := times s; xs := xs s; vs := a; as_ := as_ s |};
     x0 := x0 s; v0 := v0 s; dt := dt s |}.

Definition upd_as (a : array) (s : State) : State :=
  {| arrays := {| times := times s; xs := xs s; vs := vs s; as_ := a |};
     x0 := x0 s; v0 := v0 s; dt := dt s |}.

(** [applyDragSync(chartType, index, newValue, state)], as the state it
    leaves.  The locals [xs], [vs], [as] of the source are the arrays of
    [state] themselves, so the element write is a write into the state; the
    final [refreshChartsAndTable(state)] only reads the state (the charts get
    copies) and is left out. *)
Definition applyDragSync (chartType : string) (index : nat) (newValue : float)
    (state : State) : State :=
  if String.eqb chartType "position" then
    let state := upd_xs (set (xs state) index (Num newValue)) state in
    let newV := computeVFromX (xs state) (dt state) in
    let newA := computeAFromX (xs state) (dt state) in
    let state := upd_vs (splice (vs state) 0 (length (vs state)) newV) state in
    upd_as (splice (as_ state) 0 (length (as_ state)) newA) state
  else if String.eqb chartType "velocity" then
    let state := upd_vs (set (vs state) index (Num newValue)) state in
    let newX := integrateVToX (vs state) (x0 state) (dt state) in
    let newA := computeAFromV (vs state) (dt state) in
    let state := upd_xs (splice (xs state) 0 (length (xs state)) newX) state in
    upd_as (splice (as_ state) 0 (length (as_ state)) newA) state
  else if String.eqb chartType "acceleration" then
    let state := upd_as (set (as_ state) index (Num newValue)) state in
    let newV := integrateAToV (as_ state) (v0 state) (dt state) in
    let newX := integrateVToX newV (x0 state) (dt state) in
    let state := upd_vs (splice (vs state) 0 (length (vs state)) newV) state in
    upd_xs (splice (xs state) 0 (length (xs state)) newX) state
  else state.

(** ** The properties, in the words of the specification *)

(** The value [computeVFromX] and [computeAFromV] store at index [k] of the
    output for the samples [s]. *)
Definition first_difference (s : array) (dt : float) (k : nat) : float :=
  let n := Z.of_nat (length s) in
  let i := Z.of_nat k in
  if i =? 0 then ((s.[1] - s.[0]) / dt)%float
  else if i =? n - 1 then ((s.[n - 1] - s.[n - 2]) / dt)%float
  else ((s.[i + 1] - s.[i - 1]) / (2 * dt))%float.

(** The value [computeAFromX] stores at index [k]. *)
Definition second_difference (s : array) (dt : float) (k : nat) : float :=
  let n := Z.of_nat (length s) in
  let i := Z.of_nat k in
  if i =? 0 then ((s.[2] - 2 * s.[1] + s.[0]) / (dt * dt))%float
  else if i =? n - 1 then
    ((s.[n - 1] - 2 * s.[n - 2] + s.[n - 3]) / (dt * dt))%float
  else ((s.[i + 1] - 2 * s.[i] + s.[i - 1]) / (dt * dt))%float.

(** The scheme of [computeVFromX] and [computeAFromV], on an output [out]
    computed from the samples [s]: central differences inside, a forward
    difference at index 0 and a backward difference at the last index. *)
Definition first_difference_scheme (out s : array) (dt : float) : Prop :=
  let N := Z.of_nat (length s) in
  (forall i : nat, 1 <= Z.of_nat i <= N - 2 ->
     out !! i = Some (Num ((s.[Z.of_nat i + 1] - s.[Z.of_nat i - 1]) / (2 * dt))%float))
  /\ out !! 0%nat = Some (Num ((s.[1] - s.[0]) / dt)%float)
  /\ out !! (length s - 1)%nat = Some (Num ((s.[N - 1] - s.[N - 2]) / dt)%float).

(** The four arrays of a state all have length [N]. *)
Definition aligned (N : nat) (r : Samples) : Prop :=
  length (times r) = N /\ length (xs r) = N
  /\ length (vs r) = N /\ length (as_ r) = N.

(** The [k]-th sampling instant: [t0] after [k] additions of [dt]. *)
Definition instant (t0 dt : float) (k : nat) : float :=
  Nat.iter k (fun t => (t + dt)%float) t0.

(** The loop guard [t <= t1 + 1e-12]. *)
Definition in_window (t1 t : float) : bool := (t <=? t1 + 1e-12)%float.

(** A value as it is stored: printed with 8 fraction digits and read back. *)
Definition round8 (x : float) : float := Number (toFixed x 8).

(** The first [n] samples of the motion, as the specification words them:
    at the instant t, x0 + v0*t + 0.5*a*t^2, v0 + a*t and a (in double
    precision, the operations taken from left to right), each rounded to 8
    fraction digits. *)
Definition samples_upto (x0 v0 a t0 dt : float) (n : nat) : Samples :=
  let at_instants (f : float -> float) : array :=
    (fun k => Num (round8 (f (instant t0 dt k)))) <$> seq 0 n in
  {| times := at_instants (fun t => t);
     xs := at_instants (fun t => x0 + v0 * t + 0.5 * a * t * t)%float;
     vs := at_instants (fun t => v0 + a * t)%float;
     as_ := at_instants (fun _ => a) |}.

(** The last code unit of a string. *)
Fixpoint last_char (s : string) : option ascii :=
  match s with
  | EmptyString => None
  | String c EmptyString => Some c
  | String _ s' => last_char s'
  end.

(** Whether the code unit [c] occurs in [s]. *)
Fixpoint occurs (c : ascii) (s : string) : bool :=
  match s with
  | EmptyString => false
  | String d s' => Ascii.eqb c d || occurs c s'
  end.

(** [s] is written with the code units of [alphabet] only. *)
Definition over (alphabet s : string) : Prop :=
  forall c, occurs c s = true -> occurs c alphabet = true.

(** The code units [toFixed] prints with. *)
Definition toFixed_alphabet : string := "0123456789.-e+NaInfity".

(** The rows of the export, as the specification words them: for each
    sample, a newline and then t, x, v, a printed with 6 fraction digits and
    separated by commas. *)
Fixpoint csv_rows (ts xs vs as_ : list float) : string :=
  match ts, xs, vs, as_ with
  | t :: ts, x :: xs, v :: vs, a :: as_ =>
    (LF ++ toFixed t 6 ++ "," ++ toFixed x 6 ++ "," ++ toFixed v 6 ++ ","
        ++ toFixed a 6 ++ csv_rows ts xs vs as_)%string
  | _, _, _, _ => EmptyString
  end.

(** The fields of the same rows, before they are joined. *)
Fixpoint csv_fields (ts xs vs as_ : list float) : list (list string) :=
  match ts, xs, vs, as_ with
  | t :: ts, x :: xs, v :: vs, a :: as_ =>
    [toFixed t 6; toFixed x 6; toFixed v 6; toFixed a 6] :: csv_fields ts xs vs as_
  | _, _, _, _ => []
  end.

(** ** The table, the form and the states the page can reach *)

(** What a call leaves behind when it can throw part-way: the object it
    was building, and whether it returned or threw a [TypeError]. *)
Inductive completion (T : Type) : Type :=
| Returned (result : T)
| Thrown (partial : T).
Arguments Returned {T} result.
Arguments Thrown {T} partial.

(** The double quote, and the two opening tags of the table cells. *)
Definition DQUOTE : string := String "034" EmptyString.

Definition td_open : string :=
  ("<td style=" ++ DQUOTE ++ "padding:6px 8px" ++ DQUOTE ++ ">")%string.

Definition td_open_right : string :=
  ("<td style=" ++ DQUOTE ++ "padding:6px 8px; text-align:right" ++ DQUOTE ++ ">")%string.

(** [renderTable(tbody, times, xs, vs, as)], with the table body as the list
    of the [innerHTML] strings of its rows.  The body is emptied, then one
    row is appended per time sample; a [toFixed] on [undefined] throws and
    leaves the rows appended so far. *)
Definition renderTable (tbody : list string) (times xs vs as_ : array)
  : completion (list string) :=
  for_range 0 (length times) (fun k tbody =>
    match tbody with
    | Thrown rows => Thrown rows
    | Returned rows =>
      let i := Z.of_nat k in
      match value_toFixed (get times i) 3, value_toFixed (get vs i) 3,
            value_toFixed (get xs i) 3 with
      | Some t, Some v, Some x =>
        Returned (rows ++ [(td_open ++ t ++ "</td>" ++ td_open_right ++ v
                            ++ "</td>" ++ td_open_right ++ x ++ "</td>")%string])
      | _, _, _ => Thrown rows
      end
    end)
  (Returned []).

(** [ToBoolean] of a number: false for +0, -0 and NaN. *)
Definition ToBoolean (x : float) : bool :=
  negb ((x =? 0)%float || negb (x =? x)%float).

(** [x || d] on numbers. *)
Definition or_default (x d : float) : float := if ToBoolean x then x else d.

(** How [updateFromForm] ends: with an alert and the state untouched, or
    with the state loaded from the form. *)
Inductive form_outcome : Type :=
| Alert (message : string)
| Loaded (state : State).

(** The computation of [updateFromForm], from the six numbers that
    [parseFloat] returns for the fields x0, v0, a, t0, t1, dt (NaN for a
    field that is missing or does not parse) to the state of the page.  The
    generator is run with the cap 1000, for which 1000 units of fuel are
    enough; the drawing of the table and the charts that follows is left
    out. *)
Definition updateFromForm (px0 pv0 pa pt0 pt1 pdt : float) : option form_outcome :=
  let x0 := or_default px0 0 in
  let v0 := or_default pv0 0 in
  let a := or_default pa 0 in
  let t0 := or_default pt0 0 in
  let t1 := or_default pt1 0 in
  let dt := or_default pdt 0.1 in
  if (dt <=? 0)%float then Some (Alert "Time step dt must be > 0")
  else if (t1 <? t0)%float then Some (Alert "End time must be >= start time")
  else
    let maxPoints := 1000 in
    r ← computeKinematics 1000 x0 v0 a t0 t1 dt maxPoints;
    Some (Loaded {| arrays := r; x0 := x0; v0 := v0; dt := dt |}).

(** The states of the page: the ones [updateFromForm] loads, and the ones
    a drag commit ([onDragEnd] calling [applyDragSync]) makes of them. *)
Inductive reachable : State -> Prop :=
| reachable_loaded px0 pv0 pa pt0 pt1 pdt state :
    updateFromForm px0 pv0 pa pt0 pt1 pdt = Some (Loaded state) ->
    reachable state
| reachable_drag chartType index newValue state :
    reachable state ->
    reachable (applyDragSync chartType index newValue state).

(** The array [a] holds a number at every index below [N]. *)
Definition numbers_upto (N : nat) (a : array) : Prop :=
  forall k, (k < N)%nat -> exists x : float, a !! k = Some (Num x).

(** Number of occurrences of the code unit [c] in [s]. *)
Fixpoint count_char (c : ascii) (s : string) : nat :=
  match s with
  | EmptyString => 0
  | String d s' => (if Ascii.eqb c d then 1 else 0) + count_char c s'
  end.

(** The fields of the export row of sample [k]. *)
Definition csv_row_at (times xs vs as_ : array) (k : nat) : list string :=
  [toFixed (times.[Z.of_nat k])%float 6; toFixed (xs.[Z.of_nat k])%float 6;
   toFixed (vs.[Z.of_nat k])%float 6; toFixed (as_.[Z.of_nat k])%float 6].

(** What every state of the page satisfies: with N the number of time
    samples, each of the four arrays holds a number at every index below N. *)
Definition well_formed (state : State) : Prop :=
  let N := length (times state) in
  numbers_upto N (times state) /\ numbers_upto N (xs state)
  /\ numbers_upto N (vs state) /\ numbers_upto N (as_ state).

(** ** The helpers of [scripts/generate_pdf.js] *)

(** [s.replace(/c/g, r)] for a pattern [c] of one character. *)
Fixpoint replace_all (c : ascii) (r : string) (s : string) : string :=
  match s with
  | EmptyString => EmptyString
  | String d s' =>
    if Ascii.eqb d c then (r ++ replace_all c r s')%string
    else String d (replace_all c r s')
  end.

Definition escapeHtml (s : string) : string :=
  replace_all ">" "&gt;" (replace_all "<" "&lt;" (replace_all "&" "&amp;" s)).

(** [s.split(sep)] for a separator of one character: the pieces between
    the separators, empty pieces included. *)
Fixpoint split (sep : ascii) (s : string) : list string :=
  match s with
  | EmptyString => [EmptyString]
  | String c s' =>
    if Ascii.eqb c sep then EmptyString :: split sep s'
    else match split sep s' with
         | piece :: pieces => String c piece :: pieces
         | [] => [String c EmptyString]
         end
  end.

(** [l.includes(x)] on an array of strings. *)
Definition includes (l : list string) (x : string) : bool :=
  existsb (String.eqb x) l.

Definition EXCLUDES : list string :=
  ["node_modules"; "vendor"; "public/build"; ".git"]%string.

(** [isExcluded(p)], with [path.sep] as the parameter [sep] ("/" on POSIX,
    the backslash on Windows). *)
Definition isExcluded (sep : ascii) (p : string) : bool :=
  existsb (fun ex => includes (split sep p) ex) EXCLUDES.

(** What [fs.readdir(dir, { withFileTypes: true })] lists: files,
    directories with their own entries, and entries that are neither
    (links, sockets, ...). *)
#[local] Unset Elimination Schemes.
Inductive dirent : Type :=
| File (name : string)
| Directory (name : string) (entries : list dirent)
| Other (name : string).

#[local] Set Elimination Schemes.

Definition dirent_name (e : dirent) : string :=
  match e with
  | File name | Directory name _ | Other name => name
  end.

(** [path.join(dir, name)] for a directory path that does not end with the
    separator and an entry name as [readdir] returns it. *)
Definition path_join (sep : ascii) (dir name : string) : string :=
  (dir ++ String sep name)%string.

(** One turn of the loop of [walk(dir)], for the entry [e] of [dir]: the
    paths it adds to [results].  [walk] reads the directories in order and
    awaits each call before the next, so the asynchronous reads are taken
    in sequence. *)
Fixpoint walk_entry (sep : ascii) (dir : string) (e : dirent) : list string :=
  let full := path_join sep dir (dirent_name e) in
  if isExcluded sep full then []
  else match e with
       | Directory _ entries => flat_map (walk_entry sep full) entries
       | File _ => [full]
       | Other _ => []
       end.

(** [walk(dir)], for a directory [dir] whose entries are [entries]. *)
Definition walk (sep : ascii) (dir : string) (entries : list dirent) : list string :=
  flat_map (walk_entry sep dir) entries.

(** [s.startsWith(pre)] and [s.includes(sub)] on strings. *)
Fixpoint starts_with (pre s : string) : bool :=
  match pre, s with
  | EmptyString, _ => true
  | String c pre', String d s' => Ascii.eqb c d && starts_with pre' s'
  | String _ _, EmptyString => false
  end.

Fixpoint str_includes (s sub : string) : bool :=
  starts_with sub s
  || match s with
     | EmptyString => false
     | String _ s' => str_includes s' sub
     end.

(** The test of the [filter] that follows [walk] in the script, for the
    root [ROOT] and a collected path [f]: [path.join(ROOT, ...)] puts the
    separator between its arguments. *)
Definition kept (sep : ascii) (ROOT f : string) : bool :=
  negb (str_includes f (path_join sep ROOT "node_modules"))
  && negb (str_includes f (path_join sep ROOT "vendor"))
  && negb (str_includes f (path_join sep (path_join sep ROOT "public") "build")).

(** The escape of one character, and the entities read back (the inverse
    used to show that [escapeHtml] loses nothing). *)
Definition escape_char (c : ascii) : string :=
  if Ascii.eqb c "&" then "&amp;"
  else if Ascii.eqb c "<" then "&lt;"
  else if Ascii.eqb c ">" then "&gt;"
  else String c EmptyString.

Fixpoint escape_chars (s : string) : string :=
  match s with
  | EmptyString => EmptyString
  | String c s' => (escape_char c ++ escape_chars s')%string
  end.

Fixpoint unescape (fuel : nat) (s : string) : string :=
  match fuel with
  | O => s
  | S fuel' =>
    match s with
    | String "&" (String "a" (String "m" (String "p" (String ";" s')))) =>
      String "&" (unescape fuel' s')
    | String "&" (String "l" (String "t" (String ";" s'))) =>
      String "<" (unescape fuel' s')
    | String "&" (String "g" (String "t" (String ";" s'))) =>
      String ">" (unescape fuel' s')
    | String c s' => String c (unescape fuel' s')
    | EmptyString => EmptyString
    end
  end.

(** ** Array writes and counted loops *)

Section array_facts.
Implicit Types (a : array) (v : value) (i j k : nat).

Lemma length_set_lt a k v : (k < length a)%nat -> length (set a k v) = length a.
Proof.
  intros Hk. unfold set.
  destruct (Nat.ltb_spec k (length a)); [apply length_insert | lia].
Qed.

Lemma length_set_ge a k v : (length a <= k)%nat -> length (set a k v) = S k.
Proof.
  intros Hk. unfold set.
  destruct (Nat.ltb_spec k (length a)); [lia|].
  rewrite !length_app, length_replicate. simpl. lia.
Qed.

Lemma set_lt a k v : (k < length a)%nat -> set a k v = <[k := v]> a.
Proof. intros Hk. unfold set. destruct (Nat.ltb_spec k (length a)); [done | lia]. Qed.

Lemma lookup_set a k v j :
  (k < length a)%nat ->
  set a k v !! j = if decide (k = j) then Some v else a !! j.
Proof.
  intros Hk. rewrite set_lt by done.
  destruct (decide (k = j)) as [->|Hne].
  - by apply list_lookup_insert_eq.
  - by apply list_lookup_insert_ne.
Qed.

Lemma length_new_Array n : length (new_Array n) = n.
Proof. apply length_replicate. Qed.

Lemma splice_all a items : splice a 0 (length a) items = items.
Proof.
  unfold splice. rewrite Nat.add_0_l, take_0, drop_all. simpl. apply app_nil_r.
Qed.

Lemma get_lookup a k v : a !! k = Some v -> get a (Z.of_nat k) = v.
Proof.
  intros H. unfold get.
  destruct (Z.ltb_spec (Z.of_nat k) 0); [lia|].
  by rewrite Nat2Z.id, H.
Qed.

(** A loop whose body keeps the length of the array it writes to. *)
Lemma length_for_count (body : nat -> array -> array) c i a :
  (forall k b, (k < length b)%nat -> length (body k b) = length b) ->
  (i + c <= length a)%nat ->
  length (for_count c i body a) = length a.
Proof.
  intros Hbody. revert i a.
  induction c as [|c IH]; intros i a Hic; simpl; [done|].
  rewrite IH; rewrite Hbody; lia.
Qed.

(** A loop that stores [f k] at each index [k] it visits, whatever the
    array holds: afterwards the visited slots hold these values and the
    other slots are as before. *)
Lemma lookup_for_count_fill (f : nat -> value) (body : nat -> array -> array) c i a j :
  (forall k b, body k b = set b k (f k)) ->
  (i + c <= length a)%nat ->
  for_count c i body a !! j =
    if decide (i <= j < i + c)%nat then Some (f j) else a !! j.
Proof.
  intros Hbody. revert i a.
  induction c as [|c IH]; intros i a Hic; simpl.
  - destruct (decide _); [lia | done].
  - rewrite IH by (rewrite Hbody, length_set_lt; lia).
    rewrite Hbody, lookup_set by lia.
    repeat destruct (decide _); try lia; congruence.
Qed.

Lemma getn_lookup_eq a b k :
  a !! k = b !! k -> (a.[Z.of_nat k] = b.[Z.of_nat k])%float.
Proof.
  intros H. unfold getn, get.
  destruct (Z.ltb_spec (Z.of_nat k) 0); [done|]. by rewrite Nat2Z.id, H.
Qed.

(** A loop that stores at each index [k] it visits a value computed from
    the slot before it: afterwards every visited slot holds the value
    computed from the final content of the slot before it, and the slots
    below the first visited index are as before. *)
Lemma lookup_for_count_recur (g : nat -> float -> float)
    (body : nat -> array -> array) c i a :
  (forall k b, body k b = set b k (Num (g k (b.[Z.of_nat k - 1])%float))) ->
  (1 <= i)%nat -> (i + c <= length a)%nat ->
  let out := for_count c i body a in
  (forall j, (j < i)%nat -> out !! j = a !! j)
  /\ (forall j, (i <= j < i + c)%nat ->
        out !! j = Some (Num (g j (out.[Z.of_nat j - 1])%float))).
Proof.
  intros Hbody. revert i a.
  induction c as [|c IH]; intros i a Hi Hic; cbn [for_count].
  - split; [done | lia].
  - destruct (IH (S i) (body i a)) as [Hlow Hvis];
      [lia | rewrite Hbody, length_set_lt; lia |].
    set (out := for_count c (S i) body (body i a)) in *.
    assert (Hkeep : forall j, (j < i)%nat -> out !! j = a !! j).
    { intros j Hj. rewrite Hlow by lia. rewrite Hbody, lookup_set by lia.
      rewrite decide_False; [done | lia]. }
    split; [exact Hkeep|].
    intros j Hj. destruct (decide (j = i)) as [->|Hne]; [|apply Hvis; lia].
    rewrite Hlow by lia. rewrite Hbody, lookup_set by lia.
    rewrite decide_True by done. do 3 f_equal.
    replace (Z.of_nat i - 1) with (Z.of_nat (i - 1)) by lia.
    symmetry. apply getn_lookup_eq, Hkeep. lia.
Qed.
End array_facts.

(** ** The differentiators *)

Section differentiators.
Variables (s : array) (dt : float).
Lemma length_computeVFromX : length (computeVFromX s dt) = length s.
Proof.
  unfold computeVFromX, for_range. rewrite length_for_count.
  - apply length_new_Array.
  - intros k b Hk. repeat case_match; by apply length_set_lt.
  - rewrite length_new_Array. lia.
Qed.

Lemma length_computeAFromX : length (computeAFromX s dt) = length s.
Proof.
  unfold computeAFromX, for_range. rewrite length_for_count.
  - apply length_new_Array.
  - intros k b Hk. repeat case_match; by apply length_set_lt.
  - rewrite length_new_Array. lia.
Qed.

Lemma length_computeAFromV : length (computeAFromV s dt) = length s.
Proof.
  unfold computeAFromV, for_range. rewrite length_for_count.
  - apply length_new_Array.
  - intros k b Hk. repeat case_match; by apply length_set_lt.
  - rewrite length_new_Array. lia.
Qed.

Lemma lookup_computeVFromX k :
  (k < length s)%nat ->
  computeVFromX s dt !! k = Some (Num (first_difference s dt k)).
Proof.
  intros Hk. unfold computeVFromX, for_range.
  rewrite (lookup_for_count_fill (fun k => Num (first_difference s dt k))).
  - rewrite decide_True; [done | lia].
  - intros j b. unfold first_difference. cbv zeta. by repeat case_match.
  - rewrite length_new_Array. lia.
Qed.

Lemma lookup_computeAFromV k :
  (k < length s)%nat ->
  computeAFromV s dt !! k = Some (Num (first_difference s dt k)).
Proof.
  intros Hk. unfold computeAFromV, for_range.
  rewrite (lookup_for_count_fill (fun k => Num (first_difference s dt k))).
  - rewrite decide_True; [done | lia].
  - intros j b. unfold first_difference. cbv zeta. by repeat case_match.
  - rewrite length_new_Array. lia.
Qed.

Lemma lookup_computeAFromX k :
  (k < length s)%nat ->
  computeAFromX s dt !! k = Some (Num (second_difference s dt k)).
Proof.
  intros Hk. unfold computeAFromX, for_range.
  rewrite (lookup_for_count_fill (fun k => Num (second_difference s dt k))).
  - rewrite decide_True; [done | lia].
  - intros j b. unfold second_difference. cbv zeta. by repeat case_match.
  - rewrite length_new_Array. lia.
Qed.
End differentiators.

(** C5. For an input of length N >= 2, [computeVFromX] (velocityFromPosition)
    and [computeAFromV] (accelerationFromVelocity) both store the central
    difference (s[i+1]-s[i-1])/(2*dt) at every interior index, the forward
    difference (s[1]-s[0])/dt at index 0 and the backward difference
    (s[N-1]-s[N-2])/dt at index N-1.  The quotients are IEEE quotients, so
    the statement needs no assumption on [dt]. *)
Theorem first_differences (s : array) (dt : float) :
  (2 <= length s)%nat ->
  first_difference_scheme (computeVFromX s dt) s dt
  /\ first_difference_scheme (computeAFromV s dt) s dt.
Proof.
  intros HN.
  assert (Hin : forall i : nat, 1 <= Z.of_nat i <= Z.of_nat (length s) - 2 ->
            first_difference s dt i
            = ((s.[Z.of_nat i + 1] - s.[Z.of_nat i - 1]) / (2 * dt))%float).
  { intros i Hi. unfold first_difference. cbv zeta.
    destruct (Z.eqb_spec (Z.of_nat i) 0); [lia|].
    destruct (Z.eqb_spec (Z.of_nat i) (Z.of_nat (length s) - 1)); [lia | done]. }
  assert (H0 : first_difference s dt 0 = ((s.[1] - s.[0]) / dt)%float) by done.
  assert (Hlast : first_difference s dt (length s - 1)
            = ((s.[Z.of_nat (length s) - 1] - s.[Z.of_nat (length s) - 2]) / dt)%float).
  { unfold first_difference. cbv zeta.
    destruct (Z.eqb_spec (Z.of_nat (length s - 1)) 0); [lia|].
    destruct (Z.eqb_spec (Z.of_nat (length s - 1)) (Z.of_nat (length s) - 1));
      [done | lia]. }
  split; (split; [|split]).
  - intros i Hi. rewrite lookup_computeVFromX by lia. by rewrite Hin.
  - rewrite lookup_computeVFromX by lia. by rewrite H0.
  - rewrite lookup_computeVFromX by lia. by rewrite Hlast.
  - intros i Hi. rewrite lookup_computeAFromV by lia. by rewrite Hin.
  - rewrite lookup_computeAFromV by lia. by rewrite H0.
  - rewrite lookup_computeAFromV by lia. by rewrite Hlast.
Qed.

Lemma first_differences_witness :
  let s := [Num 0; Num 1; Num 4; Num 9]%float in
  first_difference_scheme (computeVFromX s 1) s 1
  /\ first_difference_scheme (computeAFromV s 1) s 1.
Proof. intros s. apply (first_differences s 1). simpl. lia. Defined.

(** C4. For positions of length N >= 3, [computeAFromX]
    (accelerationFromPosition) stores the second difference
    (xs[i+1]-2*xs[i]+xs[i-1])/dt^2 at every interior index 1 <= i <= N-2,
    computes index 0 from the samples 0,1,2 and index N-1 from the samples
    N-3,N-2,N-1; so the first two entries are the same number and the last
    two entries are the same number.  No assumption on [dt] is needed. *)
Theorem second_differences (xs : array) (dt : float) :
  let out := computeAFromX xs dt in
  let N := Z.of_nat (length xs) in
  (3 <= length xs)%nat ->
  (forall i : nat, 1 <= Z.of_nat i <= N - 2 ->
     out !! i = Some (Num ((xs.[Z.of_nat i + 1] - 2 * xs.[Z.of_nat i]
                            + xs.[Z.of_nat i - 1]) / (dt * dt))%float))
  /\ out !! 0%nat = Some (Num ((xs.[2] - 2 * xs.[1] + xs.[0]) / (dt * dt))%float)
  /\ out !! (length xs - 1)%nat
     = Some (Num ((xs.[N - 1] - 2 * xs.[N - 2] + xs.[N - 3]) / (dt * dt))%float)
  /\ out !! 0%nat = out !! 1%nat
  /\ out !! (length xs - 2)%nat = out !! (length xs - 1)%nat.
Proof.
  intros out N HN. subst out N.
  assert (Hin : forall i : nat, 1 <= Z.of_nat i <= Z.of_nat (length xs) - 2 ->
            second_difference xs dt i
            = ((xs.[Z.of_nat i + 1] - 2 * xs.[Z.of_nat i] + xs.[Z.of_nat i - 1])
               / (dt * dt))%float).
  { intros i Hi. unfold second_difference. cbv zeta.
    destruct (Z.eqb_spec (Z.of_nat i) 0); [lia|].
    destruct (Z.eqb_spec (Z.of_nat i) (Z.of_nat (length xs) - 1)); [lia | done]. }
  assert (H0 : second_difference xs dt 0
            = ((xs.[2] - 2 * xs.[1] + xs.[0]) / (dt * dt))%float) by done.
  assert (Hlast : second_difference xs dt (length xs - 1)
            = ((xs.[Z.of_nat (length xs) - 1] - 2 * xs.[Z.of_nat (length xs) - 2]
                + xs.[Z.of_nat (length xs) - 3]) / (dt * dt))%float).
  { unfold second_difference. cbv zeta.
    destruct (Z.eqb_spec (Z.of_nat (length xs - 1)) 0); [lia|].
    destruct (Z.eqb_spec (Z.of_nat (length xs - 1)) (Z.of_nat (length xs) - 1));
      [done | lia]. }
  repeat split.
  - intros i Hi. rewrite lookup_computeAFromX by lia. by rewrite Hin.
  - rewrite lookup_computeAFromX by lia. by rewrite H0.
  - rewrite lookup_computeAFromX by lia. by rewrite Hlast.
  - rewrite !lookup_computeAFromX by lia. rewrite H0, (Hin 1%nat) by lia. done.
  - rewrite !lookup_computeAFromX by lia. rewrite Hlast, Hin by lia.
    replace (Z.of_nat (length xs - 2)) with (Z.of_nat (length xs) - 2) by lia.
    replace (Z.of_nat (length xs) - 2 + 1) with (Z.of_nat (length xs) - 1) by lia.
    replace (Z.of_nat (length xs) - 2 - 1) with (Z.of_nat (length xs) - 3) by lia.
    done.
Qed.

Lemma second_differences_witness :
  let xs := [Num 0; Num 1; Num 4; Num 9]%float in
  computeAFromX xs 1 !! 0%nat = computeAFromX xs 1 !! 1%nat
  /\ computeAFromX xs 1 !! 2%nat = computeAFromX xs 1 !! 3%nat.
Proof.
  intros xs.
  destruct (second_differences xs 1) as (_ & _ & _ & Hfirst & Hlast);
    [simpl; lia | exact (conj Hfirst Hlast)].
Defined.

(** ** The integrators *)

Section integrators.
Variables (s : array) (c0 dt : float).

Lemma length_integrateVToX :
  length (integrateVToX s c0 dt) = Nat.max 1 (length s).
Proof.
  unfold integrateVToX, for_range.
  destruct (decide (length s = 0)%nat) as [Hz|Hnz].
  - by rewrite Hz.
  - rewrite length_for_count.
    + rewrite length_set_lt; rewrite length_new_Array; lia.
    + intros k b Hk. by apply length_set_lt.
    + rewrite length_set_lt; rewrite length_new_Array; lia.
Qed.

Lemma length_integrateAToV :
  length (integrateAToV s c0 dt) = Nat.max 1 (length s).
Proof.
  unfold integrateAToV, for_range.
  destruct (decide (length s = 0)%nat) as [Hz|Hnz].
  - by rewrite Hz.
  - rewrite length_for_count.
    + rewrite length_set_lt; rewrite length_new_Array; lia.
    + intros k b Hk. by apply length_set_lt.
    + rewrite length_set_lt; rewrite length_new_Array; lia.
Qed.

(** The trapezoidal rule: xs[0] = x0 and
    xs[k] = xs[k-1] + 0.5 * (vs[k-1] + vs[k]) * dt. *)
Lemma lookup_integrateVToX :
  let out := integrateVToX s c0 dt in
  out !! 0%nat = Some (Num c0)
  /\ forall k : nat, (1 <= k < length s)%nat ->
       out !! k = Some (Num (out.[Z.of_nat k - 1]
                             + 0.5 * (s.[Z.of_nat k - 1] + s.[Z.of_nat k]) * dt)%float).
Proof.
  destruct (decide (length s = 0)%nat) as [Hz|Hnz].
  { unfold integrateVToX. rewrite Hz. split; [done | lia]. }
  unfold integrateVToX, for_range.
  assert (Hlen : length (set (new_Array (length s)) 0 (Num c0)) = length s)
    by (rewrite length_set_lt; rewrite length_new_Array; lia).
  match goal with
  | |- context [for_count ?c ?i ?body ?a] =>
    destruct (lookup_for_count_recur
                (fun k p => (p + 0.5 * (s.[Z.of_nat k - 1] + s.[Z.of_nat k]) * dt)%float)
                body c i a) as [Hlow Hvis]; [done | lia | rewrite Hlen; lia |]
  end.
  split.
  - rewrite Hlow by lia. rewrite lookup_set by (rewrite length_new_Array; lia).
    by rewrite decide_True.
  - intros k Hk. apply Hvis. lia.
Qed.

(** Euler steps: vs[0] = v0 and vs[k] = vs[k-1] + as[k-1] * dt. *)
Lemma lookup_integrateAToV :
  let out := integrateAToV s c0 dt in
  out !! 0%nat = Some (Num c0)
  /\ forall k : nat, (1 <= k < length s)%nat ->
       out !! k = Some (Num (out.[Z.of_nat k - 1] + s.[Z.of_nat k - 1] * dt)%float).
Proof.
  destruct (decide (length s = 0)%nat) as [Hz|Hnz].
  { unfold integrateAToV. rewrite Hz. split; [done | lia]. }
  unfold integrateAToV, for_range.
  assert (Hlen : length (set (new_Array (length s)) 0 (Num c0)) = length s)
    by (rewrite length_set_lt; rewrite length_new_Array; lia).
  match goal with
  | |- context [for_count ?c ?i ?body ?a] =>
    destruct (lookup_for_count_recur
                (fun k p => (p + s.[Z.of_nat k - 1] * dt)%float)
                body c i a) as [Hlow Hvis]; [done | lia | rewrite Hlen; lia |]
  end.
  split.
  - rewrite Hlow by lia. rewrite lookup_set by (rewrite length_new_Array; lia).
    by rewrite decide_True.
  - intros k Hk. apply Hvis. lia.
Qed.
End integrators.

(** C10. On the empty input [integrateVToX] (positionFromVelocity) returns
    the one-element array [x0] and [integrateAToV] (velocityFromAcceleration)
    the one-element array [v0]; on every non-empty input of length N both
    return an array of length N. *)
Theorem integrators_length (x0 v0 dt : float) :
  integrateVToX [] x0 dt = [Num x0]
  /\ integrateAToV [] v0 dt = [Num v0]
  /\ forall s : array, s <> [] ->
       length (integrateVToX s x0 dt) = length s
       /\ length (integrateAToV s v0 dt) = length s.
Proof.
  split; [done|]. split; [done|].
  intros s Hs. rewrite length_integrateVToX, length_integrateAToV.
  destruct s; [done | simpl; lia].
Qed.

Lemma integrators_length_witness :
  let s := [Num 1; Num 2; Num 3]%float in
  length (integrateVToX s 7 0.5) = 3%nat /\ length (integrateAToV s 7 0.5) = 3%nat.
Proof.
  intros s.
  destruct (integrators_length 7 7 0.5) as (_ & _ & Hlen).
  apply (Hlen s). discriminate.
Defined.

(** ** The drag update *)

Section applyDragSync.
Variables (index : nat) (newValue : float) (state : State).

Lemma applyDragSync_position :
  applyDragSync "position" index newValue state =
  let xs' := set (xs state) index (Num newValue) in
  {| arrays := {| times := times state; xs := xs';
                  vs := computeVFromX xs' (dt state);
                  as_ := computeAFromX xs' (dt state) |};
     x0 := x0 state; v0 := v0 state; dt := dt state |}.
Proof.
  unfold applyDragSync. simpl String.eqb. cbv iota.
  unfold upd_as, upd_vs, upd_xs. simpl. by rewrite !splice_all.
Qed.

Lemma applyDragSync_velocity :
  applyDragSync "velocity" index newValue state =
  let vs' := set (vs state) index (Num newValue) in
  {| arrays := {| times := times state;
                  xs := integrateVToX vs' (x0 state) (dt state);
                  vs := vs';
                  as_ := computeAFromV vs' (dt state) |};
     x0 := x0 state; v0 := v0 state; dt := dt state |}.
Proof.
  unfold applyDragSync. simpl String.eqb. cbv iota.
  unfold upd_as, upd_vs, upd_xs. simpl. by rewrite !splice_all.
Qed.

Lemma applyDragSync_acceleration :
  applyDragSync "acceleration" index newValue state =
  let as' := set (as_ state) index (Num newValue) in
  let vs' := integrateAToV as' (v0 state) (dt state) in
  {| arrays := {| times := times state;
                  xs := integrateVToX vs' (x0 state) (dt state);
                  vs := vs';
                  as_ := as' |};
     x0 := x0 state; v0 := v0 state; dt := dt state |}.
Proof.
  unfold applyDragSync. simpl String.eqb. cbv iota.
  unfold upd_as, upd_vs, upd_xs. simpl. by rewrite !splice_all.
Qed.

(** What the update never touches, whatever the chart type is. *)
Lemma applyDragSync_frame chartType :
  let state' := applyDragSync chartType index newValue state in
  times state' = times state /\ dt state' = dt state
  /\ x0 state' = x0 state /\ v0 state' = v0 state.
Proof. unfold applyDragSync. by repeat case_match. Qed.
End applyDragSync.

(** C1. On a state whose four arrays have the same length N and for an index
    below N, [applyDragSync] (applyEdit) follows the transition table.
    A position edit overwrites xs[index] and replaces the velocities by
    [computeVFromX xs dt] and the accelerations by [computeAFromX xs dt]; a
    velocity edit overwrites vs[index] and replaces the positions by
    [integrateVToX vs x0 dt] and the accelerations by [computeAFromV vs dt];
    an acceleration edit overwrites as[index], replaces the velocities by
    [integrateAToV as v0 dt] and the positions by [integrateVToX] of these new
    velocities.  After a position edit, the differentiators applied to the
    stored positions give back the stored velocities and accelerations. *)
Theorem applyDragSync_transition_table
    (N index : nat) (newValue : float) (state : State) :
  aligned N state -> (index < N)%nat ->
  (let s' := applyDragSync "position" index newValue state in
   xs s' = <[index := Num newValue]> (xs state)
   /\ vs s' = computeVFromX (xs s') (dt state)
   /\ as_ s' = computeAFromX (xs s') (dt state)
   /\ computeVFromX (xs s') (dt s') = vs s'
   /\ computeAFromX (xs s') (dt s') = as_ s')
  /\ (let s' := applyDragSync "velocity" index newValue state in
      vs s' = <[index := Num newValue]> (vs state)
      /\ xs s' = integrateVToX (vs s') (x0 state) (dt state)
      /\ as_ s' = computeAFromV (vs s') (dt state))
  /\ (let s' := applyDragSync "acceleration" index newValue state in
      as_ s' = <[index := Num newValue]> (as_ state)
      /\ vs s' = integrateAToV (as_ s') (v0 state) (dt state)
      /\ xs s' = integrateVToX (vs s') (x0 state) (dt state)).
Proof.
  intros (Ht & Hx & Hv & Ha) Hi.
  rewrite applyDragSync_position, applyDragSync_velocity,
    applyDragSync_acceleration.
  cbn [arrays times xs vs as_ x0 v0 dt].
  rewrite !set_lt by lia. done.
Qed.

Lemma applyDragSync_transition_table_witness :
  let state :=
    {| arrays := {| times := [Num 0; Num 1; Num 2]%float;
                    xs := [Num 0; Num 1; Num 2]%float;
                    vs := [Num 1; Num 1; Num 1]%float;
                    as_ := [Num 0; Num 0; Num 0]%float |};
       x0 := 0; v0 := 1; dt := 1 |} in
  let s' := applyDragSync "position" 1 10 state in
  computeVFromX (xs s') (dt s') = vs s' /\ computeAFromX (xs s') (dt s') = as_ s'.
Proof.
  intros state.
  destruct (applyDragSync_transition_table 3 1 10 state) as [(_ & _ & _ & Hv & Ha) _].
  - by repeat split.
  - lia.
  - exact (conj Hv Ha).
Defined.

(** C9. Whatever the edited series, the index and the new value are,
    [applyDragSync] (applyEdit) leaves the [times] array and the scalars
    [dt], [x0] and [v0] of the state as they were; index 0 is treated like
    any other index. *)
Theorem applyDragSync_preserves_times_and_scalars
    (chartType : string) (index : nat) (newValue : float) (state : State) :
  let state' := applyDragSync chartType index newValue state in
  times state' = times state
  /\ dt state' = dt state
  /\ x0 state' = x0 state
  /\ v0 state' = v0 state.
Proof. apply applyDragSync_frame. Qed.

(** The arrays stay aligned under an edit inside the arrays. *)
Lemma applyDragSync_aligned (N index : nat) (chartType : string)
    (newValue : float) (state : State) :
  aligned N state -> (index < N)%nat ->
  aligned N (applyDragSync chartType index newValue state).
Proof.
  intros (Ht & Hx & Hv & Ha) Hi.
  unfold applyDragSync, aligned, upd_as, upd_vs, upd_xs.
  repeat case_match; cbn [arrays times xs vs as_ x0 v0 dt];
    rewrite ?splice_all, ?length_computeVFromX, ?length_computeAFromX,
      ?length_computeAFromV, ?length_integrateVToX, ?length_integrateAToV,
      ?length_set_lt;
    rewrite ?length_set_lt; repeat split; lia.
Qed.

(** ** The generator *)

Section generator.
Variables (x0 v0 a t0 t1 dt : float) (maxPoints : Z).

Lemma sample_samples_upto n :
  sample x0 v0 a (instant t0 dt n) (samples_upto x0 v0 a t0 dt n)
  = samples_upto x0 v0 a t0 dt (S n).
Proof.
  unfold sample, samples_upto, push, round8. cbn [times xs vs as_].
  rewrite !seq_S, !fmap_app. done.
Qed.

Lemma lookup_samples_upto n k :
  (k < n)%nat ->
  let r := samples_upto x0 v0 a t0 dt n in
  let t := instant t0 dt k in
  times r !! k = Some (Num (round8 t))
  /\ xs r !! k = Some (Num (round8 (x0 + v0 * t + 0.5 * a * t * t)%float))
  /\ vs r !! k = Some (Num (round8 (v0 + a * t)%float))
  /\ as_ r !! k = Some (Num (round8 a)).
Proof.
  intros Hk. unfold samples_upto. cbn [times xs vs as_].
  by rewrite !list_lookup_fmap, !lookup_seq_lt.
Qed.

Lemma samples_upto_aligned n : aligned n (samples_upto x0 v0 a t0 dt n).
Proof.
  unfold aligned, samples_upto. cbn [times xs vs as_].
  by rewrite !length_fmap, !length_seq.
Qed.

(** The loop, started with [n] samples stored and enough fuel, ends with
    [N] samples stored: every instant from [n] to [N] was in the window,
    the cap was not reached strictly between, and the loop ended because
    the next instant is outside the window or because the cap was
    reached by a sample it stored. *)
Lemma sampling_spec fuel n :
  Z.max 1 (maxPoints - Z.of_nat n) <= Z.of_nat fuel ->
  exists N : nat,
    sampling x0 v0 a t1 dt maxPoints fuel (instant t0 dt n)
      (samples_upto x0 v0 a t0 dt n)
    = Some (samples_upto x0 v0 a t0 dt N)
    /\ (n <= N)%nat
    /\ (forall k, (n <= k < N)%nat -> in_window t1 (instant t0 dt k) = true)
    /\ (forall k, (n < k < N)%nat -> Z.of_nat k < maxPoints)
    /\ (in_window t1 (instant t0 dt N) = false
        \/ (n < N)%nat /\ maxPoints <= Z.of_nat N).
Proof.
  revert n. induction fuel as [|fuel IH]; intros n Hfuel; [lia|].
  cbn [sampling]. fold (in_window t1 (instant t0 dt n)).
  destruct (in_window t1 (instant t0 dt n)) eqn:Hw.
  - rewrite sample_samples_upto.
    destruct (samples_upto_aligned (S n)) as (Hlen & _). rewrite Hlen.
    destruct (Z.leb_spec maxPoints (Z.of_nat (S n))) as [Hcap|Hcap].
    + exists (S n). split; [done|]. split; [lia|].
      split; [intros k Hk; by replace k with n by lia|].
      split; [lia|]. right. lia.
    + destruct (IH (S n)) as (N & HN & Hle & Hin & Hlt & Hstop); [lia|].
      exists N. split; [exact HN|]. split; [lia|].
      split.
      { intros k Hk. destruct (decide (k = n)) as [->|]; [done|]. apply Hin. lia. }
      split.
      { intros k Hk. destruct (decide (k = S n)) as [->|]; [lia|]. apply Hlt. lia. }
      destruct Hstop as [Hstop|Hstop]; [by left | right; lia].
  - exists n. split; [done|]. split; [lia|].
    split; [lia|]. split; [lia|]. by left.
Qed.
End generator.

(** [0 < dt] passes the test [dt <= 0] of the generator. *)
Lemma positive_step (dt : float) : (0 <? dt)%float = true -> (dt <=? 0)%float = false.
Proof.
  rewrite ltb_spec, leb_spec.
  change (Prim2SF 0) with (S754_zero false).
  by destruct (Prim2SF dt) as [[]|[]| |[]].
Qed.

(** The generator on a positive or NaN step: the loop of [sampling_spec]
    from no sample at all. *)
Lemma computeKinematics_spec fuel x0 v0 a t0 t1 dt maxPoints :
  (dt <=? 0)%float = false ->
  Z.max 1 maxPoints <= Z.of_nat fuel ->
  exists N : nat,
    computeKinematics fuel x0 v0 a t0 t1 dt maxPoints
    = Some (samples_upto x0 v0 a t0 dt N)
    /\ (forall k, (k < N)%nat -> in_window t1 (instant t0 dt k) = true)
    /\ (forall k, (0 < k < N)%nat -> Z.of_nat k < maxPoints)
    /\ (in_window t1 (instant t0 dt N) = false
        \/ (0 < N)%nat /\ maxPoints <= Z.of_nat N).
Proof.
  intros Hdt Hfuel. unfold computeKinematics. rewrite Hdt.
  destruct (sampling_spec x0 v0 a t0 t1 dt maxPoints fuel 0)
    as (N & HN & _ & Hin & Hlt & Hstop); [simpl; lia|].
  exists N. split; [exact HN|]. split; [intros k Hk; apply Hin; lia|]. done.
Qed.

(** C2. For a step dt > 0, the generator [computeKinematics] (generate)
    samples at t = t0, t0+dt, t0+dt+dt, ... while t <= t1 + 1e-12 (and until
    the cap of C7 is reached) and stores at each sample t,
    x0 + v0*t + 0.5*a*t^2, v0 + a*t and a, each rounded to 8 fraction
    digits.  generate(0, 5, 2, 0, 10, 0.1) with the default cap of 1000
    yields 101 points, with times[0] = 0, positions[0] = 0,
    velocities[0] = 5, times[100] = 10, positions[100] = 150 and
    velocities[100] = 25. *)
Theorem computeKinematics_samples :
  (forall (fuel : nat) (x0 v0 a t0 t1 dt : float) (maxPoints : Z),
     (0 <? dt)%float = true ->
     Z.max 1 maxPoints <= Z.of_nat fuel ->
     exists (r : Samples) (N : nat),
       computeKinematics fuel x0 v0 a t0 t1 dt maxPoints = Some r
       /\ aligned N r
       /\ (forall k, (k < N)%nat ->
             let t := instant t0 dt k in
             (t <=? t1 + 1e-12)%float = true
             /\ times r !! k = Some (Num (round8 t))
             /\ xs r !! k = Some (Num (round8 (x0 + v0 * t + 0.5 * a * t * t)%float))
             /\ vs r !! k = Some (Num (round8 (v0 + a * t)%float))
             /\ as_ r !! k = Some (Num (round8 a)))
       /\ ((instant t0 dt N <=? t1 + 1e-12)%float = false
            \/ maxPoints <= Z.of_nat N))
  /\ (exists r : Samples,
        computeKinematics 1000 0 5 2 0 10 0.1 maxPoints_default = Some r
        /\ aligned 101 r
        /\ times r !! 0%nat = Some (Num 0)
        /\ xs r !! 0%nat = Some (Num 0)
        /\ vs r !! 0%nat = Some (Num 5)
        /\ times r !! 100%nat = Some (Num 10)
        /\ xs r !! 100%nat = Some (Num 150)
        /\ vs r !! 100%nat = Some (Num 25)).
Proof.
  split.
  - intros fuel x0 v0 a t0 t1 dt maxPoints Hdt Hfuel.
    destruct (computeKinematics_spec fuel x0 v0 a t0 t1 dt maxPoints)
      as (N & HN & Hin & _ & Hstop); [by apply positive_step | done |].
    exists (samples_upto x0 v0 a t0 dt N), N.
    split; [exact HN|]. split; [apply samples_upto_aligned|]. split.
    + intros k Hk t. split; [by apply Hin | by apply lookup_samples_upto].
    + destruct Hstop as [Hstop|[_ Hstop]]; [by left | by right].
  - eexists. split; [vm_compute; reflexivity|].
    vm_compute. repeat split; reflexivity.
Qed.

Lemma computeKinematics_samples_witness :
  exists (r : Samples) (N : nat),
    computeKinematics 10 0 5 2 0 1 0.5 5 = Some r
    /\ aligned N r
    /\ (forall k, (k < N)%nat ->
          let t := instant 0 0.5 k in
          (t <=? 1 + 1e-12)%float = true
          /\ times r !! k = Some (Num (round8 t))
          /\ xs r !! k = Some (Num (round8 (0 + 5 * t + 0.5 * 2 * t * t)%float))
          /\ vs r !! k = Some (Num (round8 (5 + 2 * t)%float))
          /\ as_ r !! k = Some (Num (round8 2)))
    /\ ((instant 0 0.5 N <=? 1 + 1e-12)%float = false \/ 5 <= Z.of_nat N).
Proof.
  destruct computeKinematics_samples as [Hgen _].
  apply (Hgen 10%nat 0%float 5%float 2%float 0%float 1%float 0.5%float 5).
  - reflexivity.
  - lia.
Defined.

(** C3. The generator returns four arrays of one length, and an edit at an
    index inside four arrays of one length N leaves four arrays of length
    N. *)
Theorem arrays_stay_aligned :
  (forall (fuel : nat) (x0 v0 a t0 t1 dt : float) (maxPoints : Z),
     Z.max 1 maxPoints <= Z.of_nat fuel ->
     exists (r : Samples) (N : nat),
       computeKinematics fuel x0 v0 a t0 t1 dt maxPoints = Some r /\ aligned N r)
  /\ (forall (N index : nat) (chartType : string) (newValue : float) (state : State),
        aligned N state -> (index < N)%nat ->
        aligned N (applyDragSync chartType index newValue state)).
Proof.
  split.
  - intros fuel x0 v0 a t0 t1 dt maxPoints Hfuel.
    destruct (dt <=? 0)%float eqn:Hdt.
    + exists {| times := []; xs := []; vs := []; as_ := [] |}, 0%nat.
      unfold computeKinematics. by rewrite Hdt.
    + destruct (computeKinematics_spec fuel x0 v0 a t0 t1 dt maxPoints)
        as (N & HN & _); [done | done |].
      exists (samples_upto x0 v0 a t0 dt N), N.
      split; [exact HN | apply samples_upto_aligned].
  - intros N index chartType newValue state. apply applyDragSync_aligned.
Qed.

Lemma arrays_stay_aligned_witness :
  (exists (r : Samples) (N : nat),
     computeKinematics 4 0 5 2 0 1 0.5 3 = Some r /\ aligned N r)
  /\ aligned 2
       (applyDragSync "velocity" 1 3
          {| arrays := {| times := [Num 0; Num 1]%float; xs := [Num 0; Num 1]%float;
                          vs := [Num 1; Num 1]%float; as_ := [Num 0; Num 0]%float |};
             x0 := 0; v0 := 1; dt := 1 |}).
Proof.
  destruct arrays_stay_aligned as [Hgen Hedit]. split.
  - apply Hgen. lia.
  - apply Hedit; [by repeat split | lia].
Defined.

(** C8. For a step dt <= 0 the generator returns four empty arrays, and it
    does so without entering the loop (no fuel is used, nothing throws). *)
Theorem computeKinematics_nonpositive_step
    (fuel : nat) (x0 v0 a t0 t1 dt : float) (maxPoints : Z) :
  (dt <=? 0)%float = true ->
  computeKinematics fuel x0 v0 a t0 t1 dt maxPoints
  = Some {| times := []; xs := []; vs := []; as_ := [] |}.
Proof. intros Hdt. unfold computeKinematics. by rewrite Hdt. Qed.

Lemma computeKinematics_nonpositive_step_witness :
  computeKinematics 0 0 5 2 0 10 0 1000
  = Some {| times := []; xs := []; vs := []; as_ := [] |}.
Proof. apply computeKinematics_nonpositive_step. reflexivity. Defined.

(** With a cap of 0 the generator still stores the first sample: the cap is
    tested after the sample is stored. *)
Lemma computeKinematics_cap_zero :
  exists r : Samples,
    computeKinematics 1 0 0 0 0 1000 0.001 0 = Some r
    /\ length (times r) = 1%nat
    /\ Z.of_nat (length (times r)) <> 0.
Proof.
  eexists. split; [vm_compute; reflexivity|].
  split; [reflexivity | vm_compute; discriminate].
Qed.

(** C7, amended. For a step dt > 0 and an integer cap maxPoints >= 1, the
    generator returns at most maxPoints points, and exactly maxPoints points when the
    first maxPoints instants t0, t0+dt, ... all satisfy t <= t1 + 1e-12:
    sampling stops as soon as the cap is reached, whether or not t1 has
    been reached, and nothing throws.
    generate(0, 0, 0, 0, 1000, 0.001, 1000) yields exactly 1000 points. *)
Theorem computeKinematics_cap :
  (forall (fuel : nat) (x0 v0 a t0 t1 dt : float) (maxPoints : Z),
     (0 <? dt)%float = true ->
     1 <= maxPoints <= Z.of_nat fuel ->
     exists (r : Samples) (N : nat),
       computeKinematics fuel x0 v0 a t0 t1 dt maxPoints = Some r
       /\ aligned N r
       /\ Z.of_nat N <= maxPoints
       /\ ((forall k : nat, Z.of_nat k < maxPoints ->
              in_window t1 (instant t0 dt k) = true) ->
           Z.of_nat N = maxPoints))
  /\ (exists r : Samples,
        computeKinematics 1000 0 0 0 0 1000 0.001 1000 = Some r
        /\ aligned 1000 r).
Proof.
  split.
  - intros fuel x0 v0 a t0 t1 dt maxPoints Hdt Hcap.
    destruct (computeKinematics_spec fuel x0 v0 a t0 t1 dt maxPoints)
      as (N & HN & Hin & Hlt & Hstop); [by apply positive_step | lia |].
    exists (samples_upto x0 v0 a t0 dt N), N.
    split; [exact HN|]. split; [apply samples_upto_aligned|].
    assert (HNle : Z.of_nat N <= maxPoints).
    { destruct (decide (N <= 1)%nat); [lia|].
      specialize (Hlt (N - 1)%nat). lia. }
    split; [exact HNle|].
    intros Hall. destruct Hstop as [Hstop|Hstop]; [|lia].
    destruct (Z.ltb_spec (Z.of_nat N) maxPoints) as [Hlt'|]; [|lia].
    rewrite Hall in Hstop by done. discriminate.
  - eexists. split; [vm_compute; reflexivity|].
    vm_compute. repeat split; reflexivity.
Qed.

Lemma computeKinematics_cap_witness :
  exists (r : Samples) (N : nat),
    computeKinematics 5 0 5 2 0 10 0.5 3 = Some r
    /\ aligned N r /\ Z.of_nat N <= 3.
Proof.
  destruct computeKinematics_cap as [Hgen _].
  destruct (Hgen 5%nat 0%float 5%float 2%float 0%float 10%float 0.5%float 3)
    as (r & N & Hr & Hal & Hle & _).
  - reflexivity.
  - lia.
  - exists r, N. exact (conj Hr (conj Hal Hle)).
Defined.

(** ** The CSV export *)

Section strings.
Local Open Scope string_scope.

Lemma append_assoc (s1 s2 s3 : string) : (s1 ++ s2) ++ s3 = s1 ++ (s2 ++ s3).
Proof. induction s1 as [|c s1 IH]; simpl; [done | by rewrite IH]. Qed.

Lemma append_empty_r (s : string) : s ++ "" = s.
Proof. induction s as [|c s IH]; simpl; [done | by rewrite IH]. Qed.

Lemma concat_empty_cons (r : string) (rs : list string) :
  String.concat "" (r :: rs) = r ++ String.concat "" rs.
Proof. destruct rs; [simpl; by rewrite append_empty_r | done]. Qed.

(** [join] puts the separator between the rows, and nowhere else. *)
Lemma join_cons (sep r : string) (rs : list string) :
  join sep (r :: rs) = r ++ String.concat "" (map (fun r' => sep ++ r') rs).
Proof.
  unfold join. revert r.
  induction rs as [|r' rs IH]; intros r; [by rewrite append_empty_r|].
  change (String.concat sep (r :: r' :: rs))
    with (r ++ sep ++ String.concat sep (r' :: rs)).
  rewrite IH. cbn [map]. by rewrite concat_empty_cons, append_assoc.
Qed.
End strings.

Section alphabet.
Local Open Scope string_scope.
Variable A : string.

Lemma over_empty : over A "".
Proof. by intros c. Qed.

Lemma over_cons d s : occurs d A = true -> over A s -> over A (String d s).
Proof.
  intros Hd Hs c. simpl. intros [Hc|Hc]%orb_true_iff; [|by apply Hs].
  by apply Ascii.eqb_eq in Hc as ->.
Qed.

Lemma over_app s1 s2 : over A s1 -> over A s2 -> over A (s1 ++ s2).
Proof.
  intros H1 H2. induction s1 as [|d s1 IH]; [done|].
  intros c. simpl. intros [Hc|Hc]%orb_true_iff.
  - apply H1. simpl. by rewrite Hc.
  - apply IH; [|done]. intros c' Hc'. apply H1. simpl. rewrite Hc'. apply orb_true_r.
Qed.

Lemma over_str_take k s : over A s -> over A (str_take k s).
Proof.
  revert s. induction k as [|k IH]; intros [|d s] Hs; try done.
  intros c. simpl. intros [Hc|Hc]%orb_true_iff.
  - apply Hs. simpl. by rewrite Hc.
  - apply (IH s); [|done]. intros c' Hc'. apply Hs. simpl. rewrite Hc'. apply orb_true_r.
Qed.

Lemma over_str_drop k s : over A s -> over A (str_drop k s).
Proof.
  revert s. induction k as [|k IH]; intros [|d s] Hs; try done.
  simpl. apply IH. intros c' Hc'. apply Hs. simpl. rewrite Hc'. apply orb_true_r.
Qed.
End alphabet.

(** A literal is written over an alphabet that contains its code units. *)
Ltac over_literal :=
  repeat (apply over_cons; [reflexivity|]); apply over_empty.

Lemma over_digits (n : Z) : over toFixed_alphabet (digits n).
Proof.
  unfold digits. generalize (N.to_uint (Z.to_N n)). intros d.
  assert (H : over toFixed_alphabet (NilEmpty.string_of_uint d)).
  { induction d; simpl; try (apply over_cons; [reflexivity | assumption]).
    apply over_empty. }
  destruct d; try exact H. over_literal.
Qed.

Lemma over_zeros (k : nat) : over toFixed_alphabet (zeros k).
Proof.
  induction k as [|k IH]; simpl; [apply over_empty|].
  by apply over_cons.
Qed.

(** What [toFixed] prints is written with digits, the point, the sign, the
    exponent mark and the letters of [NaN] and [Infinity]: no comma and no
    newline. *)
Lemma over_toFixed (x : float) (f : nat) : over toFixed_alphabet (toFixed x f).
Proof.
  unfold toFixed.
  destruct (Prim2SF x) as [sgn|[]| |sgn m e]; try over_literal.
  - destruct f; [over_literal|]. apply over_app; [over_literal | apply over_zeros].
  - assert (Hs : over toFixed_alphabet (if sgn then "-" else "")%string)
      by (destruct sgn; over_literal).
    destruct (at_least_1e21 m e).
    + apply over_app; [done|]. unfold toString_1e21.
      destruct (shortest 17 1 m e) as [[s k] n].
      apply over_app; [|apply over_app; [over_literal | apply over_digits]].
      destruct k as [|[|k]]; try apply over_digits.
      * apply over_app; [apply over_str_take, over_digits|].
        apply over_app; [over_literal | apply over_str_drop, over_digits].
      * apply over_app; [apply over_str_take, over_digits|].
        apply over_app; [over_literal | apply over_str_drop, over_digits].
    + destruct f; [apply over_app; [done | apply over_digits]|].
      apply over_app; [done|].
      assert (Hd : over toFixed_alphabet
                (zeros (S (S f) - String.length (digits (scaled_nearest m e (S f))))
                 ++ digits (scaled_nearest m e (S f)))%string)
        by (apply over_app; [apply over_zeros | apply over_digits]).
      apply over_app; [by apply over_str_take|].
      apply over_app; [over_literal | by apply over_str_drop].
Qed.

Section last_char.
Local Open Scope string_scope.

Lemma last_char_cons (c : ascii) (s : string) :
  last_char (String c s) = Some (default c (last_char s)).
Proof.
  revert c. induction s as [|d s IH]; intros c; [done|].
  change (last_char (String c (String d s))) with (last_char (String d s)).
  by rewrite IH.
Qed.

Lemma last_char_app (s1 s2 : string) :
  last_char (s1 ++ s2)
  = match last_char s2 with Some c => Some c | None => last_char s1 end.
Proof.
  induction s1 as [|d s1 IH]; [simpl; by destruct (last_char s2)|].
  change (String d s1 ++ s2) with (String d (s1 ++ s2)).
  rewrite !last_char_cons, IH. by destruct (last_char s2).
Qed.

Lemma last_char_occurs (c : ascii) (s : string) :
  last_char s = Some c -> occurs c s = true.
Proof.
  induction s as [|d s IH]; [done|].
  rewrite last_char_cons. simpl.
  destruct (last_char s) as [c'|]; simpl; intros [= ->].
  - rewrite IH by done. apply orb_true_r.
  - by rewrite Ascii.eqb_refl.
Qed.
End last_char.

Section csvFromData.
Variables ts xs vs as_ : list float.
Hypothesis Hxs : length xs = length ts.
Hypothesis Hvs : length vs = length ts.
Hypothesis Has : length as_ = length ts.

Lemma csv_loop c i (acc : list (list string)) :
  (i + c = length ts)%nat ->
  for_count c i (fun k lines =>
    let i := Z.of_nat k in
    ls ← lines;
    t ← value_toFixed (get (Num <$> ts) i) 6;
    x ← value_toFixed (get (Num <$> xs) i) 6;
    v ← value_toFixed (get (Num <$> vs) i) 6;
    a ← value_toFixed (get (Num <$> as_) i) 6;
    Some (ls ++ [[t; x; v; a]])) (Some acc)
  = Some (acc ++ csv_fields (drop i ts) (drop i xs) (drop i vs) (drop i as_)).
Proof using Hxs Hvs Has.
  revert i acc. induction c as [|c IH]; intros i acc Hic.
  - rewrite !drop_ge by lia. simpl. by rewrite app_nil_r.
  - destruct (lookup_lt_is_Some_2 ts i) as [t Ht]; [lia|].
    destruct (lookup_lt_is_Some_2 xs i) as [x Hx]; [lia|].
    destruct (lookup_lt_is_Some_2 vs i) as [v Hv]; [lia|].
    destruct (lookup_lt_is_Some_2 as_ i) as [a Ha]; [lia|].
    cbn [for_count].
    assert (Hget : forall (l : list float) (y : float),
              l !! i = Some y -> get (Num <$> l) (Z.of_nat i) = Num y).
    { intros l y Hl. apply get_lookup. rewrite list_lookup_fmap. by rewrite Hl. }
    rewrite (Hget ts t Ht), (Hget xs x Hx), (Hget vs v Hv), (Hget as_ a Ha).
    cbn [value_toFixed mbind option_bind].
    rewrite IH by lia.
    rewrite (drop_S ts t i Ht), (drop_S xs x i Hx), (drop_S vs v i Hv),
      (drop_S as_ a i Ha).
    cbn [csv_fields]. by rewrite <- app_assoc.
Qed.

Lemma csv_lines_fields :
  csv_lines (Num <$> ts) (Num <$> xs) (Num <$> vs) (Num <$> as_)
  = Some (csv_header :: csv_fields ts xs vs as_).
Proof using Hxs Hvs Has.
  unfold csv_lines, for_range. rewrite length_fmap, Nat.sub_0_r.
  by rewrite csv_loop.
Qed.
End csvFromData.

Lemma csv_rows_fields (ts xs vs as_ : list float) :
  String.concat "" (map (fun r => (LF ++ r)%string)
                      (map (join ",") (csv_fields ts xs vs as_)))
  = csv_rows ts xs vs as_.
Proof.
  revert xs vs as_.
  induction ts as [|t ts IH]; intros [|x xs] [|v vs] [|a as_]; try done.
  cbn [csv_fields csv_rows map]. rewrite concat_empty_cons, IH.
  unfold join. cbn [String.concat]. by rewrite !append_assoc.
Qed.

(** The rows never end with a newline: the last code unit is the last one
    of the last field (or the comma before it). *)
Lemma last_char_csv_rows (ts xs vs as_ : list float) :
  last_char (csv_rows ts xs vs as_) <> Some "010"%char.
Proof.
  revert xs vs as_.
  induction ts as [|t ts IH]; intros [|x xs] [|v vs] [|a as_]; try done.
  cbn [csv_rows]. set (R := csv_rows ts xs vs as_).
  assert (exists c, last_char ("," ++ toFixed a 6 ++ R)%string = Some c
                    /\ c <> "010"%char) as (c & Hc & Hne).
  { change ("," ++ toFixed a 6 ++ R)%string with (String "," (toFixed a 6 ++ R)%string).
    rewrite last_char_cons, last_char_app.
    destruct (last_char R) as [c|] eqn:HR.
    - exists c. split; [done|]. intros ->. by apply (IH xs vs as_).
    - destruct (last_char (toFixed a 6)) as [c|] eqn:HA; simpl.
      + exists c. split; [done|]. intros ->.
        apply last_char_occurs, over_toFixed in HA. discriminate.
      + by exists ","%char. }
  replace (LF ++ toFixed t 6 ++ "," ++ toFixed x 6 ++ "," ++ toFixed v 6 ++ ","
              ++ toFixed a 6 ++ R)%string
    with ((LF ++ toFixed t 6 ++ "," ++ toFixed x 6 ++ "," ++ toFixed v 6)
            ++ ("," ++ toFixed a 6 ++ R))%string
    by (by rewrite !append_assoc).
  rewrite last_char_app, Hc. congruence.
Qed.

(** The export of a one-sample trajectory ends with the digit of its last
    field, not with a newline. *)
Lemma csvFromData_not_newline_terminated :
  exists out : string,
    csvFromData [Num 0] [Num 0] [Num 5] [Num 2] = Some out
    /\ out = ("t (s),x (m),v (m/s),a (m/s^2)" ++ LF
              ++ "0.000000,0.000000,5.000000,2.000000")%string
    /\ last_char out <> Some "010"%char.
Proof.
  eexists. split; [vm_compute; reflexivity|].
  split; [reflexivity | vm_compute; discriminate].
Qed.

(** C6, amended. For a trajectory of N samples, the export is the header
    row [t (s),x (m),v (m/s),a (m/s^2)] followed, for each sample in order,
    by a newline and the row of t, x, v, a, each printed by [toFixed(6)]
    (6 fraction digits) and separated by commas.  The newline separates the
    rows; none follows the last row. *)
Theorem csvFromData_format (ts xs vs as_ : list float) :
  length xs = length ts -> length vs = length ts -> length as_ = length ts ->
  let out := ("t (s),x (m),v (m/s),a (m/s^2)" ++ csv_rows ts xs vs as_)%string in
  csvFromData (Num <$> ts) (Num <$> xs) (Num <$> vs) (Num <$> as_) = Some out
  /\ last_char out <> Some "010"%char.
Proof.
  intros Hxs Hvs Has out. split.
  - unfold csvFromData.
    rewrite csv_lines_fields by done. cbn [mbind option_bind map].
    by rewrite join_cons, csv_rows_fields.
  - unfold out. rewrite last_char_app.
    destruct (last_char (csv_rows ts xs vs as_)) as [c|] eqn:Hc; [|done].
    rewrite <- Hc. apply last_char_csv_rows.
Qed.

Lemma csvFromData_format_witness :
  csvFromData (Num <$> [0; 0.5]%float) (Num <$> [0; 2.75]%float)
    (Num <$> [5; 6]%float) (Num <$> [2; 2]%float)
  = Some ("t (s),x (m),v (m/s),a (m/s^2)"
          ++ LF ++ "0.000000,0.000000,5.000000,2.000000"
          ++ LF ++ "0.500000,2.750000,6.000000,2.000000")%string.
Proof.
  by destruct (csvFromData_format [0; 0.5]%float [0; 2.75]%float [5; 6]%float
                 [2; 2]%float) as [-> _].
Defined.

(** ** Further properties of the numerical helpers *)

Section more_array_facts.
Implicit Types (a b : array) (v : value) (i j k : nat).

Lemma lookup_set_eq a i v : set a i v !! i = Some v.
Proof.
  unfold set. destruct (Nat.ltb_spec i (length a)).
  - by apply list_lookup_insert_eq.
  - rewrite lookup_app_r by lia. rewrite lookup_app_r; rewrite length_replicate; [|lia].
    by replace (i - length a - (i - length a))%nat with 0%nat by lia.
Qed.

Lemma length_set a i v : length (set a i v) = Nat.max (length a) (S i).
Proof.
  destruct (Nat.ltb_spec i (length a)).
  - rewrite length_set_lt by done. lia.
  - rewrite length_set_ge by done. lia.
Qed.

(** Writing the same value to the same slot again changes nothing. *)
Lemma set_set a i v : set (set a i v) i v = set a i v.
Proof.
  rewrite (set_lt (set a i v)) by (rewrite length_set; lia).
  apply list_insert_id, lookup_set_eq.
Qed.

Lemma getn_set_ne a i v (z : Z) :
  (i < length a)%nat -> z <> Z.of_nat i ->
  ((set a i v).[z] = a.[z])%float.
Proof.
  intros Hi Hz. rewrite set_lt by done. unfold getn, get.
  destruct (Z.ltb_spec z 0); [done|].
  rewrite list_lookup_insert_ne by lia. done.
Qed.

Lemma getn_lookup a b (z : Z) :
  (forall j, Z.of_nat j = z -> a !! j = b !! j) -> (a.[z] = b.[z])%float.
Proof.
  intros H. unfold getn, get. destruct (Z.ltb_spec z 0); [done|].
  rewrite (H (Z.to_nat z)) by lia. done.
Qed.
End more_array_facts.

Section differentiator_locality.
Variables (s : array) (dt : float) (i : nat) (v : value).
Hypothesis Hi : (i < length s)%nat.

Lemma first_difference_set j :
  (j < length s)%nat ->
  (j + 1 <> i)%nat -> (i + 1 <> j)%nat ->
  (j = i -> (0 < j)%nat /\ (j + 1 < length s)%nat) ->
  first_difference (set s i v) dt j = first_difference s dt j.
Proof using Hi.
  intros Hj Hl Hr Hmid. unfold first_difference. cbv zeta.
  rewrite length_set_lt by done.
  destruct (Z.eqb_spec (Z.of_nat j) 0);
    [|destruct (Z.eqb_spec (Z.of_nat j) (Z.of_nat (length s) - 1))];
    rewrite !getn_set_ne by lia; done.
Qed.

Lemma second_difference_set j :
  (j < length s)%nat ->
  (i + 2 <= j \/ j + 2 <= i)%nat ->
  (j = 0%nat -> i <> 2%nat) ->
  ((j + 1)%nat = length s -> (i + 3)%nat <> length s) ->
  second_difference (set s i v) dt j = second_difference s dt j.
Proof using Hi.
  intros Hj Hfar H0 Hlast. unfold second_difference. cbv zeta.
  rewrite length_set_lt by done.
  destruct (Z.eqb_spec (Z.of_nat j) 0);
    [|destruct (Z.eqb_spec (Z.of_nat j) (Z.of_nat (length s) - 1))];
    rewrite !getn_set_ne by lia; done.
Qed.
End differentiator_locality.

(** X1. A write to one sample reaches few first differences.  After
    [s[i] = v] inside the array, [computeVFromX] and [computeAFromV] give at
    index [j] what they gave before, unless [j] is [i - 1] or [i + 1], or
    [j = i] is the first or the last index (the one-sided differences read
    their own sample, the central difference does not). *)
Theorem first_differences_local (s : array) (dt : float) (i j : nat) (v : value) :
  (i < length s)%nat -> (j < length s)%nat ->
  (j + 1 <> i)%nat -> (i + 1 <> j)%nat ->
  (j = i -> (0 < j)%nat /\ (j + 1 < length s)%nat) ->
  computeVFromX (set s i v) dt !! j = computeVFromX s dt !! j
  /\ computeAFromV (set s i v) dt !! j = computeAFromV s dt !! j.
Proof.
  intros Hi Hj Hl Hr Hmid. split.
  - rewrite !lookup_computeVFromX by (rewrite ?length_set_lt; done).
    by rewrite first_difference_set.
  - rewrite !lookup_computeAFromV by (rewrite ?length_set_lt; done).
    by rewrite first_difference_set.
Qed.

Lemma first_differences_local_witness :
  let s := [Num 0; Num 1; Num 4; Num 9; Num 16]%float in
  computeVFromX (set s 2 (Num 100)) 1 !! 2%nat = computeVFromX s 1 !! 2%nat
  /\ computeAFromV (set s 2 (Num 100)) 1 !! 2%nat = computeAFromV s 1 !! 2%nat.
Proof.
  intros s. apply (first_differences_local s 1 2 2 (Num 100)); simpl; lia.
Defined.

(** X2. A write to one position reaches few second differences.  After
    [xs[i] = v] inside the array, [computeAFromX] gives at index [j] what it
    gave before when [j] is at least two places from [i], except that index
    0 also reads sample 2 and the last index also reads sample N-3. *)
Theorem second_differences_local (xs : array) (dt : float) (i j : nat) (v : value) :
  (i < length xs)%nat -> (j < length xs)%nat ->
  (i + 2 <= j \/ j + 2 <= i)%nat ->
  (j = 0%nat -> i <> 2%nat) ->
  ((j + 1)%nat = length xs -> (i + 3)%nat <> length xs) ->
  computeAFromX (set xs i v) dt !! j = computeAFromX xs dt !! j.
Proof.
  intros Hi Hj Hfar H0 Hlast.
  rewrite !lookup_computeAFromX by (rewrite ?length_set_lt; done).
  by rewrite second_difference_set.
Qed.

Lemma second_differences_local_witness :
  let xs := [Num 0; Num 1; Num 4; Num 9; Num 16; Num 25]%float in
  computeAFromX (set xs 1 (Num 100)) 1 !! 3%nat = computeAFromX xs 1 !! 3%nat.
Proof.
  intros xs. apply (second_differences_local xs 1 1 3 (Num 100)); simpl; lia.
Defined.

(** X3. [integrateVToX] is the trapezoidal rule: the output starts with
    [x0], and every later entry is the entry before it plus
    0.5 * (vs[k-1] + vs[k]) * dt. *)
Theorem integrateVToX_trapezoid (vs : array) (x0 dt : float) :
  let out := integrateVToX vs x0 dt in
  out !! 0%nat = Some (Num x0)
  /\ forall k : nat, (1 <= k < length vs)%nat ->
       out !! k = Some (Num (out.[Z.of_nat k - 1]
                             + 0.5 * (vs.[Z.of_nat k - 1] + vs.[Z.of_nat k]) * dt)%float).
Proof. apply lookup_integrateVToX. Qed.

Lemma integrateVToX_trapezoid_witness :
  integrateVToX [Num 1; Num 2; Num 3]%float 7 1 !! 2%nat = Some (Num 11).
Proof.
  destruct (integrateVToX_trapezoid [Num 1; Num 2; Num 3]%float 7 1) as [_ Hk].
  rewrite (Hk 2%nat) by (simpl; lia). vm_compute. reflexivity.
Defined.

(** X4. [integrateAToV] takes Euler steps: the output starts with [v0], and
    every later entry is the entry before it plus as[k-1] * dt. *)
Theorem integrateAToV_euler (as_ : array) (v0 dt : float) :
  let out := integrateAToV as_ v0 dt in
  out !! 0%nat = Some (Num v0)
  /\ forall k : nat, (1 <= k < length as_)%nat ->
       out !! k = Some (Num (out.[Z.of_nat k - 1] + as_.[Z.of_nat k - 1] * dt)%float).
Proof. apply lookup_integrateAToV. Qed.

Lemma integrateAToV_euler_witness :
  integrateAToV [Num 1; Num 2; Num 3]%float 7 0.5 !! 2%nat = Some (Num 8.5).
Proof.
  destruct (integrateAToV_euler [Num 1; Num 2; Num 3]%float 7 0.5) as [_ Hk].
  rewrite (Hk 2%nat) by (simpl; lia). vm_compute. reflexivity.
Defined.

Section integrator_prefix.
Variables (a b : array) (c0 dt : float).
Hypothesis Hlen : length a = length b.

(** The position at [k] is determined by the velocities up to [k]. *)
Lemma integrateVToX_prefix k :
  (k < length a)%nat ->
  (forall j, (j <= k)%nat -> a !! j = b !! j) ->
  integrateVToX a c0 dt !! k = integrateVToX b c0 dt !! k.
Proof using Hlen.
  destruct (lookup_integrateVToX a c0 dt) as [Ha0 HaS].
  destruct (lookup_integrateVToX b c0 dt) as [Hb0 HbS].
  induction k as [|k IH]; intros Hk Hagree; [by rewrite Ha0, Hb0|].
  rewrite HaS, HbS by lia.
  replace (Z.of_nat (S k) - 1) with (Z.of_nat k) by lia.
  rewrite (getn_lookup_eq (integrateVToX a c0 dt) (integrateVToX b c0 dt) k)
    by (apply IH; [lia | intros j Hj; apply Hagree; lia]).
  rewrite (getn_lookup a b (Z.of_nat k)), (getn_lookup a b (Z.of_nat (S k)));
    [done | |]; intros j Hj; apply Hagree; lia.
Qed.

(** The velocity at [k] is determined by the accelerations below [k]. *)
Lemma integrateAToV_prefix k :
  (k < length a)%nat ->
  (forall j, (j < k)%nat -> a !! j = b !! j) ->
  integrateAToV a c0 dt !! k = integrateAToV b c0 dt !! k.
Proof using Hlen.
  destruct (lookup_integrateAToV a c0 dt) as [Ha0 HaS].
  destruct (lookup_integrateAToV b c0 dt) as [Hb0 HbS].
  induction k as [|k IH]; intros Hk Hagree; [by rewrite Ha0, Hb0|].
  rewrite HaS, HbS by lia.
  replace (Z.of_nat (S k) - 1) with (Z.of_nat k) by lia.
  rewrite (getn_lookup_eq (integrateAToV a c0 dt) (integrateAToV b c0 dt) k)
    by (apply IH; [lia | intros j Hj; apply Hagree; lia]).
  rewrite (getn_lookup a b (Z.of_nat k)); [done|].
  intros j Hj; apply Hagree; lia.
Qed.
End integrator_prefix.

(** X5. The integrators look backwards only.  After [vs[i] = v] inside the
    array, [integrateVToX] gives the same positions as before at every index
    below [i]; after [as[i] = v], [integrateAToV] gives the same velocities
    as before at every index up to and including [i]. *)
Theorem integrators_causal (s : array) (c0 dt : float) (i k : nat) (v : value) :
  (i < length s)%nat ->
  ((k < i)%nat ->
     integrateVToX (set s i v) c0 dt !! k = integrateVToX s c0 dt !! k)
  /\ ((k <= i)%nat ->
        integrateAToV (set s i v) c0 dt !! k = integrateAToV s c0 dt !! k).
Proof.
  intros Hi. rewrite set_lt by done. split; intros Hk.
  - apply integrateVToX_prefix; [apply length_insert | rewrite length_insert; lia |].
    intros j Hj. apply list_lookup_insert_ne. lia.
  - apply integrateAToV_prefix; [apply length_insert | rewrite length_insert; lia |].
    intros j Hj. apply list_lookup_insert_ne. lia.
Qed.

Lemma integrators_causal_witness :
  let s := [Num 1; Num 2; Num 3]%float in
  integrateAToV (set s 1 (Num 50)) 7 1 !! 1%nat = integrateAToV s 7 1 !! 1%nat.
Proof.
  intros s.
  destruct (integrators_causal s 7 1 1 1 (Num 50)) as [_ H]; [simpl; lia|].
  apply H. lia.
Defined.




(** The update does nothing for a chart type it does not know. *)
Lemma applyDragSync_other (chartType : string) (index : nat) (newValue : float)
    (state : State) :
  chartType <> "position"%string -> chartType <> "velocity"%string ->
  chartType <> "acceleration"%string ->
  applyDragSync chartType index newValue state = state.
Proof.
  intros Hp Hv Ha. unfold applyDragSync.
  apply String.eqb_neq in Hp, Hv, Ha. by rewrite Hp, Hv, Ha.
Qed.

(** X7. [applyDragSync] is idempotent: committing the same drag (same chart,
    same index, same value) a second time leaves the state as the first
    commit left it.  This holds for every index, also past the end. *)
Theorem applyDragSync_idempotent
    (chartType : string) (index : nat) (newValue : float) (state : State) :
  applyDragSync chartType index newValue
    (applyDragSync chartType index newValue state)
  = applyDragSync chartType index newValue state.
Proof.
  destruct (String.eqb_spec chartType "position") as [->|Hp].
  { rewrite !applyDragSync_position. cbn [arrays times xs vs as_ x0 v0 dt].
    by rewrite set_set. }
  destruct (String.eqb_spec chartType "velocity") as [->|Hv].
  { rewrite !applyDragSync_velocity. cbn [arrays times xs vs as_ x0 v0 dt].
    by rewrite set_set. }
  destruct (String.eqb_spec chartType "acceleration") as [->|Ha].
  { rewrite !applyDragSync_acceleration. cbn [arrays times xs vs as_ x0 v0 dt].
    by rewrite set_set. }
  by rewrite !applyDragSync_other.
Qed.




(** NaN absorbs the arithmetic of the differentiators. *)
Section nan.
Local Open Scope float_scope.

Lemma nan_sub_l x : nan - x = nan.
Proof.
  rewrite <- (SF2Prim_Prim2SF (nan - x)), sub_spec.
  by change (Prim2SF nan) with S754_nan.
Qed.

Lemma nan_sub_r x : x - nan = nan.
Proof.
  rewrite <- (SF2Prim_Prim2SF (x - nan)), sub_spec.
  change (Prim2SF nan) with S754_nan.
  by destruct (Prim2SF x) as [[]|[]| |[]].
Qed.

Lemma nan_add_l x : nan + x = nan.
Proof.
  rewrite <- (SF2Prim_Prim2SF (nan + x)), add_spec.
  by change (Prim2SF nan) with S754_nan.
Qed.

Lemma nan_add_r x : x + nan = nan.
Proof.
  rewrite <- (SF2Prim_Prim2SF (x + nan)), add_spec.
  change (Prim2SF nan) with S754_nan.
  by destruct (Prim2SF x) as [[]|[]| |[]].
Qed.

Lemma nan_mul_r x : x * nan = nan.
Proof.
  rewrite <- (SF2Prim_Prim2SF (x * nan)), mul_spec.
  change (Prim2SF nan) with S754_nan.
  by destruct (Prim2SF x) as [[]|[]| |[]].
Qed.

Lemma nan_div_l x : nan / x = nan.
Proof.
  rewrite <- (SF2Prim_Prim2SF (nan / x)), div_spec.
  by change (Prim2SF nan) with S754_nan.
Qed.

Lemma nan_leb_l x : (nan <=? x) = false.
Proof. rewrite leb_spec. by change (Prim2SF nan) with S754_nan. Qed.
End nan.

(** X10. Too few samples give NaN, not an error.  On a single sample the
    first differences ([computeVFromX], [computeAFromV]) return one NaN; on
    one or two samples the second differences ([computeAFromX]) return NaN
    in every slot: the formulas read past the ends of the array. *)
Theorem differentiators_short_input (x y : value) (dt : float) :
  computeVFromX [x] dt = [Num nan]
  /\ computeAFromV [x] dt = [Num nan]
  /\ computeAFromX [x] dt = [Num nan]
  /\ computeAFromX [x; y] dt = [Num nan; Num nan].
Proof.
  unfold computeVFromX, computeAFromV, computeAFromX, for_range.
  cbn -[PrimFloat.add PrimFloat.sub PrimFloat.mul PrimFloat.div].
  unfold JS.set; cbn -[PrimFloat.add PrimFloat.sub PrimFloat.mul PrimFloat.div].
  unfold getn, get; cbn -[PrimFloat.add PrimFloat.sub PrimFloat.mul PrimFloat.div].
  by rewrite ?nan_mul_r, ?nan_sub_l, ?nan_sub_r, ?nan_add_l, ?nan_add_r, ?nan_div_l.
Qed.

(** ** Further properties of the generator *)

(** X11. The generator returns no point exactly when the step is <= 0 or
    the start time fails the loop test t0 <= t1 + 1e-12 (a start after the
    end, or a NaN bound); in every other case the first sample is stored,
    whatever the cap is. *)
Theorem computeKinematics_empty_iff
    (fuel : nat) (x0 v0 a t0 t1 dt : float) (maxPoints : Z) :
  Z.max 1 maxPoints <= Z.of_nat fuel ->
  exists (r : Samples) (N : nat),
    computeKinematics fuel x0 v0 a t0 t1 dt maxPoints = Some r
    /\ aligned N r
    /\ (N = 0%nat <-> (dt <=? 0)%float = true \/ (t0 <=? t1 + 1e-12)%float = false).
Proof.
  intros Hfuel. destruct (dt <=? 0)%float eqn:Hdt.
  - exists {| times := []; xs := []; vs := []; as_ := [] |}, 0%nat.
    unfold computeKinematics. rewrite Hdt. split; [done|]. split; [done|].
    split; [by left | done].
  - destruct (computeKinematics_spec fuel x0 v0 a t0 t1 dt maxPoints)
      as (N & HN & Hin & _ & Hstop); [done | done |].
    exists (samples_upto x0 v0 a t0 dt N), N.
    split; [exact HN|]. split; [apply samples_upto_aligned|]. split.
    + intros ->. right. destruct Hstop as [Hstop|[Hpos _]]; [exact Hstop | lia].
    + intros [Hfalse|Hout]; [done|].
      destruct N as [|N]; [done|].
      specialize (Hin 0%nat). unfold in_window, instant in Hin. simpl in Hin.
      rewrite Hin in Hout by lia. done.
Qed.

Lemma computeKinematics_empty_iff_witness :
  exists (r : Samples) (N : nat),
    computeKinematics 5 0 5 2 3 1 0.5 5 = Some r
    /\ aligned N r
    /\ (N = 0%nat <-> (0.5 <=? 0)%float = true \/ (3 <=? 1 + 1e-12)%float = false).
Proof.
  apply (computeKinematics_empty_iff 5 0%float 5%float 2%float 3%float 1%float
           0.5%float 5). lia.
Defined.

(** X12. A NaN step is not caught by the test dt <= 0: the generator then
    stores the sample at t0 (when t0 passes the loop test) and stops, since
    t0 + NaN fails the test.  The result is one point, not an empty
    trajectory. *)
Theorem computeKinematics_nan_step
    (fuel : nat) (x0 v0 a t0 t1 : float) (maxPoints : Z) :
  Z.max 1 maxPoints <= Z.of_nat fuel ->
  (t0 <=? t1 + 1e-12)%float = true ->
  computeKinematics fuel x0 v0 a t0 t1 nan maxPoints
  = Some {| times := [Num (round8 t0)];
            xs := [Num (round8 (x0 + v0 * t0 + 0.5 * a * t0 * t0)%float)];
            vs := [Num (round8 (v0 + a * t0)%float)];
            as_ := [Num (round8 a)] |}.
Proof.
  intros Hfuel Ht0.
  destruct (computeKinematics_spec fuel x0 v0 a t0 t1 nan maxPoints)
    as (N & HN & Hin & _ & Hstop); [done | done |].
  assert (N = 1%nat) as ->; [|exact HN].
  destruct N as [|[|N]]; [|done|].
  - destruct Hstop as [Hstop|[Hpos _]]; [|lia].
    unfold in_window, instant in Hstop. simpl in Hstop. by rewrite Ht0 in Hstop.
  - specialize (Hin 1%nat). unfold in_window, instant in Hin. simpl in Hin.
    rewrite nan_add_r, nan_leb_l in Hin. by specialize (Hin ltac:(lia)).
Qed.

Lemma computeKinematics_nan_step_witness :
  exists r : Samples,
    computeKinematics 1000 0 5 2 0 10 nan 1000 = Some r /\ aligned 1 r.
Proof.
  eexists. split.
  - apply computeKinematics_nan_step; [lia | reflexivity].
  - by repeat split.
Defined.

(** When the step is absorbed by the start time, every instant is the
    start time. *)
Lemma instant_absorbed (t0 dt : float) (k : nat) :
  (t0 + dt)%float = t0 -> instant t0 dt k = t0.
Proof.
  intros Habs. induction k as [|k IH]; [done|].
  unfold instant in *. simpl. by rewrite IH.
Qed.

(** X13. When t0 + dt rounds back to t0 (a step too small for the
    magnitude of t0), time never advances and only the cap ends the loop:
    for a positive step, a cap maxPoints >= 1 and a start time that passes
    the loop test, the generator returns exactly maxPoints points, all of
    them the sample at t0. *)
Theorem computeKinematics_absorbed_step
    (fuel : nat) (x0 v0 a t0 t1 dt : float) (maxPoints : Z) :
  (dt <=? 0)%float = false ->
  (t0 + dt)%float = t0 ->
  (t0 <=? t1 + 1e-12)%float = true ->
  1 <= maxPoints <= Z.of_nat fuel ->
  exists r : Samples,
    computeKinematics fuel x0 v0 a t0 t1 dt maxPoints = Some r
    /\ aligned (Z.to_nat maxPoints) r
    /\ forall k, (k < Z.to_nat maxPoints)%nat ->
         times r !! k = Some (Num (round8 t0))
         /\ xs r !! k = Some (Num (round8 (x0 + v0 * t0 + 0.5 * a * t0 * t0)%float))
         /\ vs r !! k = Some (Num (round8 (v0 + a * t0)%float)).
Proof.
  intros Hdt Habs Ht0 Hcap.
  destruct (computeKinematics_spec fuel x0 v0 a t0 t1 dt maxPoints)
    as (N & HN & Hin & Hlt & Hstop); [done | lia |].
  assert (HN' : N = Z.to_nat maxPoints).
  { destruct Hstop as [Hstop|[Hpos Hge]].
    - unfold in_window in Hstop. rewrite instant_absorbed in Hstop by done.
      by rewrite Ht0 in Hstop.
    - destruct (decide (N <= 1)%nat); [lia|].
      specialize (Hlt (N - 1)%nat). lia. }
  subst N. exists (samples_upto x0 v0 a t0 dt (Z.to_nat maxPoints)).
  split; [exact HN|]. split; [apply samples_upto_aligned|].
  intros k Hk.
  destruct (lookup_samples_upto x0 v0 a t0 dt (Z.to_nat maxPoints) k Hk)
    as (Ht & Hx & Hv & _).
  rewrite instant_absorbed in Ht, Hx, Hv by done. done.
Qed.

Lemma computeKinematics_absorbed_step_witness :
  exists r : Samples,
    computeKinematics 3 0 5 2 1e20 (1e21) 0.001 3 = Some r
    /\ aligned 3 r
    /\ times r !! 2%nat = Some (Num 1e20).
Proof.
  destruct (computeKinematics_absorbed_step 3 0 5 2 1e20 1e21 0.001 3)
    as (r & Hr & Hal & Hk); try reflexivity; [lia|].
  exists r. split; [exact Hr|]. split; [exact Hal|].
  destruct (Hk 2%nat) as [Ht _]; [simpl; lia|].
  rewrite Ht. vm_compute. reflexivity.
Defined.

(** ** The form and the states of the page *)

Section floats.
Local Open Scope float_scope.

Lemma ToBoolean_not_nan x : ToBoolean x = true -> (x =? x) = true.
Proof.
  unfold ToBoolean. destruct (x =? x); [done|]. by rewrite orb_true_r.
Qed.

Lemma ToBoolean_not_zero x : ToBoolean x = true -> (x =? 0) = false.
Proof. unfold ToBoolean. by destruct (x =? 0). Qed.

(** A number that is not NaN and fails [x <= 0] is positive. *)
Lemma not_leb_ltb x : (x =? x) = true -> (x <=? 0) = false -> (0 <? x) = true.
Proof.
  rewrite FloatAxioms.eqb_spec, FloatAxioms.leb_spec, FloatAxioms.ltb_spec.
  change (Prim2SF 0) with (S754_zero false).
  by destruct (Prim2SF x) as [[]|[]| |[]].
Qed.

(** [x || d] is never NaN when [d] is not. *)
Lemma or_default_not_nan x d :
  (d =? d) = true -> (or_default x d =? or_default x d) = true.
Proof.
  intros Hd. unfold or_default. destruct (ToBoolean x) eqn:Hx; [|done].
  by apply ToBoolean_not_nan.
Qed.
End floats.

(** What [updateFromForm] loads. *)
Lemma updateFromForm_Loaded px0 pv0 pa pt0 pt1 pdt state :
  updateFromForm px0 pv0 pa pt0 pt1 pdt = Some (Loaded state) ->
  (0 <? dt state)%float = true
  /\ dt state = or_default pdt 0.1
  /\ x0 state = or_default px0 0
  /\ v0 state = or_default pv0 0
  /\ exists N : nat,
       (N <= 1000)%nat
       /\ arrays state
          = samples_upto (x0 state) (v0 state) (or_default pa 0)
              (or_default pt0 0) (dt state) N.
Proof.
  unfold updateFromForm.
  destruct (or_default pdt 0.1 <=? 0)%float eqn:Hdt; [done|].
  destruct (or_default pt1 0 <? or_default pt0 0)%float; [done|].
  destruct (computeKinematics_spec 1000 (or_default px0 0) (or_default pv0 0)
              (or_default pa 0) (or_default pt0 0) (or_default pt1 0)
              (or_default pdt 0.1) 1000)
    as (N & HN & _ & Hlt & _); [done | lia |].
  rewrite HN. cbn [mbind option_bind]. intros [= <-].
  cbn [arrays x0 v0 dt].
  split; [by apply not_leb_ltb; [apply or_default_not_nan|]|].
  do 3 (split; [done|]). exists N. split; [|done].
  destruct (decide (N <= 1)%nat); [lia|].
  specialize (Hlt (N - 1)%nat). lia.
Qed.

(** X14. [updateFromForm] always ends, with an alert or with a loaded
    state, and every state it loads has a step dt > 0, initial conditions
    x0 and v0 that are not NaN, and four aligned arrays of at most 1000
    points.  A dt field that is missing, unparsable or zero does not raise
    the alert: the step 0.1 is used. *)
Theorem updateFromForm_loads_valid_state (px0 pv0 pa pt0 pt1 pdt : float) :
  (exists outcome : form_outcome,
     updateFromForm px0 pv0 pa pt0 pt1 pdt = Some outcome
     /\ match outcome with
        | Alert _ => True
        | Loaded state =>
          (0 <? dt state)%float = true
          /\ (x0 state =? x0 state)%float = true
          /\ (v0 state =? v0 state)%float = true
          /\ exists N : nat, (N <= 1000)%nat /\ aligned N state
        end)
  /\ (ToBoolean pdt = false ->
      updateFromForm px0 pv0 pa pt0 pt1 pdt
      = updateFromForm px0 pv0 pa pt0 pt1 0.1).
Proof.
  split.
  - destruct (updateFromForm px0 pv0 pa pt0 pt1 pdt) as [[msg|state]|] eqn:Hrun.
    + by exists (Alert msg).
    + exists (Loaded state). split; [done|].
      destruct (updateFromForm_Loaded _ _ _ _ _ _ _ Hrun)
        as (Hdt & _ & Hx0 & Hv0 & N & HN & Harr).
      split; [done|]. rewrite Hx0, Hv0.
      split; [by apply or_default_not_nan|].
      split; [by apply or_default_not_nan|].
      exists N. split; [done|]. rewrite Harr. apply samples_upto_aligned.
    + exfalso. revert Hrun. unfold updateFromForm.
      destruct (or_default pdt 0.1 <=? 0)%float eqn:Hdt; [done|].
      destruct (or_default pt1 0 <? or_default pt0 0)%float; [done|].
      destruct (computeKinematics_spec 1000 (or_default px0 0) (or_default pv0 0)
                  (or_default pa 0) (or_default pt0 0) (or_default pt1 0)
                  (or_default pdt 0.1) 1000)
        as (N & HN & _); [done | lia |].
      by rewrite HN.
  - intros Hpdt. unfold updateFromForm, or_default. by rewrite Hpdt.
Qed.

Lemma updateFromForm_loads_valid_state_witness :
  updateFromForm nan 5 2 nan 10 0 = updateFromForm nan 5 2 nan 10 0.1.
Proof.
  destruct (updateFromForm_loads_valid_state nan 5 2 nan 10 0) as [_ H].
  apply H. reflexivity.
Defined.

Section numbers_upto.
Implicit Types (a : array) (N i k : nat).

Lemma numbers_upto_length N a : numbers_upto N a -> (N <= length a)%nat.
Proof.
  intros H. destruct N as [|N]; [lia|].
  destruct (H N) as [x Hx]; [lia|]. apply lookup_lt_Some in Hx. lia.
Qed.

Lemma numbers_upto_fmap N (l : list float) :
  (N <= length l)%nat -> numbers_upto N (Num <$> l).
Proof.
  intros HN k Hk. destruct (lookup_lt_is_Some_2 l k) as [x Hx]; [lia|].
  exists x. by rewrite list_lookup_fmap, Hx.
Qed.

Lemma lookup_set_other a i k v :
  (k < length a)%nat -> k <> i -> set a i v !! k = a !! k.
Proof.
  intros Hk Hne. unfold set. destruct (Nat.ltb_spec i (length a)).
  - by apply list_lookup_insert_ne.
  - by apply lookup_app_l.
Qed.

Lemma numbers_upto_set N a i (x : float) :
  numbers_upto N a -> numbers_upto N (set a i (Num x)).
Proof.
  intros H k Hk. destruct (decide (k = i)) as [->|Hne].
  - exists x. apply lookup_set_eq.
  - rewrite lookup_set_other; [by apply H | | done].
    apply numbers_upto_length in H. lia.
Qed.

Lemma numbers_upto_getn N a k :
  numbers_upto N a -> (k < N)%nat -> get a (Z.of_nat k) = Num (a.[Z.of_nat k])%float.
Proof.
  intros H Hk. destruct (H k Hk) as [x Hx].
  unfold getn. by rewrite (get_lookup a k (Num x)).
Qed.

Lemma numbers_computeVFromX N a dt :
  (N <= length a)%nat -> numbers_upto N (computeVFromX a dt).
Proof. intros HN k Hk. eexists. apply lookup_computeVFromX. lia. Qed.

Lemma numbers_computeAFromX N a dt :
  (N <= length a)%nat -> numbers_upto N (computeAFromX a dt).
Proof. intros HN k Hk. eexists. apply lookup_computeAFromX. lia. Qed.

Lemma numbers_computeAFromV N a dt :
  (N <= length a)%nat -> numbers_upto N (computeAFromV a dt).
Proof. intros HN k Hk. eexists. apply lookup_computeAFromV. lia. Qed.

Lemma numbers_integrateVToX N a c0 dt :
  (N <= length a)%nat -> numbers_upto N (integrateVToX a c0 dt).
Proof.
  intros HN k Hk. destruct (lookup_integrateVToX a c0 dt) as [H0 HS].
  destruct k as [|k]; [by eexists|]. eexists. apply HS. lia.
Qed.

Lemma numbers_integrateAToV N a c0 dt :
  (N <= length a)%nat -> numbers_upto N (integrateAToV a c0 dt).
Proof.
  intros HN k Hk. destruct (lookup_integrateAToV a c0 dt) as [H0 HS].
  destruct k as [|k]; [by eexists|]. eexists. apply HS. lia.
Qed.
End numbers_upto.

Lemma well_formed_applyDragSync chartType index newValue state :
  well_formed state -> well_formed (applyDragSync chartType index newValue state).
Proof.
  intros (Ht & Hx & Hv & Ha).
  destruct (String.eqb_spec chartType "position") as [->|Hp].
  { rewrite applyDragSync_position. unfold well_formed.
    cbn [arrays times xs vs as_ x0 v0 dt].
    pose proof (numbers_upto_set _ _ index newValue Hx) as Hx'.
    pose proof (numbers_upto_length _ _ Hx').
    split; [done|]. split; [done|].
    split; [by apply numbers_computeVFromX | by apply numbers_computeAFromX]. }
  destruct (String.eqb_spec chartType "velocity") as [->|Hv'].
  { rewrite applyDragSync_velocity. unfold well_formed.
    cbn [arrays times xs vs as_ x0 v0 dt].
    pose proof (numbers_upto_set _ _ index newValue Hv) as Hv'.
    pose proof (numbers_upto_length _ _ Hv').
    split; [done|]. split; [by apply numbers_integrateVToX|].
    split; [done | by apply numbers_computeAFromV]. }
  destruct (String.eqb_spec chartType "acceleration") as [->|Ha'].
  { rewrite applyDragSync_acceleration. unfold well_formed.
    cbn [arrays times xs vs as_ x0 v0 dt].
    pose proof (numbers_upto_set _ _ index newValue Ha) as Ha'.
    pose proof (numbers_upto_length _ _ Ha').
    split; [done|].
    split; [apply numbers_integrateVToX; rewrite length_integrateAToV; lia|].
    split; [by apply numbers_integrateAToV | done]. }
  by rewrite applyDragSync_other.
Qed.

Lemma well_formed_reachable state : reachable state -> well_formed state.
Proof.
  induction 1 as [px0 pv0 pa pt0 pt1 pdt state Hrun|ct i v state _ IH].
  - destruct (updateFromForm_Loaded _ _ _ _ _ _ _ Hrun)
      as (_ & _ & _ & _ & N & _ & Harr).
    unfold well_formed. rewrite Harr. unfold samples_upto.
    cbn [times xs vs as_].
    repeat split; intros k Hk; rewrite length_fmap, length_seq in Hk;
      rewrite list_lookup_fmap, lookup_seq_lt by done; by eexists.
  - by apply well_formed_applyDragSync.
Qed.

Section count_char.
Local Open Scope string_scope.
Variable c : ascii.

Lemma count_char_app (s1 s2 : string) :
  count_char c (s1 ++ s2) = (count_char c s1 + count_char c s2)%nat.
Proof. induction s1 as [|d s1 IH]; simpl; [done | rewrite IH; lia]. Qed.

Lemma count_char_not_occurs (s : string) :
  occurs c s = false -> count_char c s = 0%nat.
Proof.
  induction s as [|d s IH]; simpl; [done|].
  intros [Hd Hs]%orb_false_iff. rewrite Hd, IH by done. done.
Qed.

Lemma count_char_toFixed (x : float) (f : nat) :
  occurs c toFixed_alphabet = false -> count_char c (toFixed x f) = 0%nat.
Proof.
  intros Hc. apply count_char_not_occurs.
  destruct (occurs c (toFixed x f)) eqn:Hocc; [|done].
  apply over_toFixed in Hocc. congruence.
Qed.

(** Joining rows adds one separator between two rows. *)
Lemma count_char_join (sep : string) (rows : list string) :
  count_char c (join sep rows)
  = (foldr (fun r n => count_char c r + n) 0 rows
     + (length rows - 1) * count_char c sep)%nat.
Proof.
  unfold join. induction rows as [|r rows IH]; [done|].
  destruct rows as [|r' rows]; [simpl; lia|].
  change (String.concat sep (r :: r' :: rows))
    with (r ++ sep ++ String.concat sep (r' :: rows)).
  rewrite !count_char_app, IH. simpl. lia.
Qed.
End count_char.

Section csv_of_state.
Variables times xs vs as_ : array.
Hypothesis Ht : numbers_upto (length times) times.
Hypothesis Hx : numbers_upto (length times) xs.
Hypothesis Hv : numbers_upto (length times) vs.
Hypothesis Ha : numbers_upto (length times) as_.

Lemma csv_loop_numbers c i (acc : list (list string)) :
  (i + c = length times)%nat ->
  for_count c i (fun k lines =>
    let i := Z.of_nat k in
    ls ← lines;
    t ← value_toFixed (get times i) 6;
    x ← value_toFixed (get xs i) 6;
    v ← value_toFixed (get vs i) 6;
    a ← value_toFixed (get as_ i) 6;
    Some (ls ++ [[t; x; v; a]])) (Some acc)
  = Some (acc ++ (csv_row_at times xs vs as_ <$> seq i c)).
Proof using Ht Hx Hv Ha.
  revert i acc. induction c as [|c IH]; intros i acc Hic.
  - simpl. by rewrite app_nil_r.
  - cbn [for_count].
    rewrite (numbers_upto_getn _ times i Ht), (numbers_upto_getn _ xs i Hx),
      (numbers_upto_getn _ vs i Hv), (numbers_upto_getn _ as_ i Ha) by lia.
    cbn [value_toFixed mbind option_bind].
    rewrite IH by lia. cbn [seq fmap list_fmap]. by rewrite <- app_assoc.
Qed.

Lemma csv_lines_numbers :
  csv_lines times xs vs as_
  = Some (csv_header :: (csv_row_at times xs vs as_ <$> seq 0 (length times))).
Proof using Ht Hx Hv Ha.
  unfold csv_lines, for_range. rewrite Nat.sub_0_r. by rewrite csv_loop_numbers.
Qed.

(** The table body the loop of [renderTable] builds. *)
Lemma renderTable_loop c i (rows : list string) :
  (i + c = length times)%nat ->
  exists rows' : list string,
    for_count c i (fun k tbody =>
      match tbody with
      | Thrown rows => Thrown rows
      | Returned rows =>
        let i := Z.of_nat k in
        match value_toFixed (get times i) 3, value_toFixed (get vs i) 3,
              value_toFixed (get xs i) 3 with
        | Some t, Some v, Some x =>
          Returned (rows ++ [(td_open ++ t ++ "</td>" ++ td_open_right ++ v
                              ++ "</td>" ++ td_open_right ++ x ++ "</td>")%string])
        | _, _, _ => Thrown rows
        end
      end) (Returned rows)
    = Returned (rows ++ rows')
    /\ length rows' = c
    /\ forall k, (k < c)%nat ->
         rows' !! k
         = Some (td_open ++ toFixed (times.[Z.of_nat (i + k)])%float 3 ++ "</td>"
                 ++ td_open_right ++ toFixed (vs.[Z.of_nat (i + k)])%float 3 ++ "</td>"
                 ++ td_open_right ++ toFixed (xs.[Z.of_nat (i + k)])%float 3
                 ++ "</td>")%string.
Proof using Ht Hx Hv.
  revert i rows. induction c as [|c IH]; intros i rows Hic.
  - exists []. simpl. rewrite app_nil_r. split; [done|]. split; [done | lia].
  - cbn [for_count].
    rewrite (numbers_upto_getn _ times i Ht), (numbers_upto_getn _ xs i Hx),
      (numbers_upto_getn _ vs i Hv) by lia.
    cbn [value_toFixed].
    edestruct (IH (S i)) as (rows' & Hrun & Hlen & Hrows); [lia|].
    rewrite Hrun. eexists (_ :: rows'). rewrite <- app_assoc.
    split; [reflexivity|]. split; [simpl; lia|].
    intros [|k] Hk.
    + simpl. by rewrite Nat.add_0_r.
    + simpl. rewrite Hrows by lia. by replace (i + S k)%nat with (S i + k)%nat by lia.
Qed.
End csv_of_state.

(** A row of the export has no newline and three commas. *)
Lemma csv_row_at_counts (times xs vs as_ : array) (k : nat) :
  let row := join "," (csv_row_at times xs vs as_ k) in
  count_char "010" row = 0%nat /\ count_char "," row = 3%nat.
Proof.
  unfold csv_row_at, join. cbn [String.concat].
  rewrite !count_char_app, !count_char_toFixed by reflexivity. done.
Qed.

Lemma csv_rows_counts (times xs vs as_ : array) (ks : list nat) :
  let rows := join "," <$> (csv_row_at times xs vs as_ <$> ks) in
  foldr (fun r n => count_char "010" r + n)%nat 0%nat rows = 0%nat
  /\ foldr (fun r n => count_char "," r + n)%nat 0%nat rows = (3 * length ks)%nat.
Proof.
  induction ks as [|k ks [IHn IHc]]; [done|].
  cbn [fmap list_fmap foldr length].
  destruct (csv_row_at_counts times xs vs as_ k) as [Hn Hc].
  cbn zeta in Hn, Hc. rewrite Hn, Hc. cbn zeta in IHn, IHc.
  split; [exact IHn | rewrite IHc; lia].
Qed.

(** X15. The CSV export of the page never throws.  For every state the
    page can reach (loaded by [updateFromForm], then changed by any number
    of drag commits of any chart, index and value), [csvFromData] returns a
    text, and the text has one newline per time sample (so N + 1 rows for N
    samples) and three commas per row. *)
Theorem csvFromData_reachable (state : State) :
  reachable state ->
  exists out : string,
    csvFromData (times state) (xs state) (vs state) (as_ state) = Some out
    /\ count_char "010" out = length (times state)
    /\ count_char "," out = (3 * (length (times state) + 1))%nat.
Proof.
  intros (Ht & Hx & Hv & Ha)%well_formed_reachable.
  unfold csvFromData. rewrite csv_lines_numbers by done.
  cbn [mbind option_bind]. eexists. split; [reflexivity|].
  rewrite !count_char_join.
  change (map (join ",") (csv_header :: ?l)) with (join "," csv_header :: map (join ",") l).
  cbn [map foldr length].
  destruct (csv_rows_counts (times state) (xs state) (vs state) (as_ state)
              (seq 0 (length (times state)))) as [Hn Hc].
  cbn zeta in Hn, Hc. rewrite length_seq in Hc.
  change (map (join ",")) with (fmap (M := list) (join ",")).
  rewrite Hn, Hc, !length_fmap, length_seq. simpl. lia.
Qed.

Lemma csvFromData_reachable_witness :
  exists (state : State) (out : string),
    updateFromForm nan 5 2 nan 10 nan = Some (Loaded state)
    /\ csvFromData (times state) (xs state) (vs state) (as_ state) = Some out.
Proof.
  destruct (updateFromForm nan 5 2 nan 10 nan) as [[msg|state]|] eqn:Hrun;
    [by vm_compute in Hrun | | by vm_compute in Hrun].
  destruct (csvFromData_reachable state) as (out & Hout & _);
    [by eapply reachable_loaded|].
  by exists state, out.
Defined.

(** X16. The data table never throws on a state of the page.  For every
    reachable state, [renderTable] returns with one row per time sample,
    whatever the table held before; row k shows the time, the velocity and
    the position of sample k, in this order, each printed by [toFixed(3)].
    The accelerations are not shown. *)
Theorem renderTable_reachable (state : State) (tbody : list string) :
  reachable state ->
  exists rows : list string,
    renderTable tbody (times state) (xs state) (vs state) (as_ state)
    = Returned rows
    /\ length rows = length (times state)
    /\ forall k, (k < length (times state))%nat ->
         rows !! k
         = Some (td_open ++ toFixed ((times state).[Z.of_nat k])%float 3 ++ "</td>"
                 ++ td_open_right ++ toFixed ((vs state).[Z.of_nat k])%float 3
                 ++ "</td>"
                 ++ td_open_right ++ toFixed ((xs state).[Z.of_nat k])%float 3
                 ++ "</td>")%string.
Proof.
  intros (Ht & Hx & Hv & _)%well_formed_reachable.
  unfold renderTable, for_range. rewrite Nat.sub_0_r.
  destruct (renderTable_loop (times state) (xs state) (vs state) Ht Hx Hv
              (length (times state)) 0 []) as (rows & Hrun & Hlen & Hrows); [done|].
  exists rows. split; [exact Hrun|]. split; [exact Hlen|]. exact Hrows.
Qed.

Lemma renderTable_reachable_witness :
  exists (state : State) (rows : list string),
    updateFromForm nan 5 2 nan 10 nan = Some (Loaded state)
    /\ renderTable [] (times state) (xs state) (vs state) (as_ state)
       = Returned rows
    /\ length rows = length (times state).
Proof.
  destruct (updateFromForm nan 5 2 nan 10 nan) as [[msg|state]|] eqn:Hrun;
    [by vm_compute in Hrun | | by vm_compute in Hrun].
  destruct (renderTable_reachable state []) as (rows & Hrows & Hlen & _);
    [by eapply reachable_loaded|].
  by exists state, rows.
Defined.

(** ** The helpers of the PDF script *)

Section escapeHtml.
Local Open Scope string_scope.

Lemma replace_all_app c r s1 s2 :
  replace_all c r (s1 ++ s2) = replace_all c r s1 ++ replace_all c r s2.
Proof.
  induction s1 as [|d s1 IH]; [done|]. simpl.
  destruct (Ascii.eqb d c); rewrite IH; [by rewrite append_assoc | done].
Qed.

Lemma escape_chars_app s1 s2 :
  escape_chars (s1 ++ s2) = escape_chars s1 ++ escape_chars s2.
Proof.
  induction s1 as [|d s1 IH]; [done|]. simpl. by rewrite IH, append_assoc.
Qed.

(** The three passes amount to one: no pass touches what an earlier pass
    wrote. *)
Lemma escapeHtml_escape_chars s : escapeHtml s = escape_chars s.
Proof.
  unfold escapeHtml. induction s as [|c s IH]; [done|].
  cbn [replace_all escape_chars]. unfold escape_char.
  destruct (Ascii.eqb_spec c "&") as [->|Hamp].
  { rewrite !replace_all_app, IH. done. }
  cbn [replace_all].
  destruct (Ascii.eqb_spec c "<") as [->|Hlt].
  { rewrite !replace_all_app, IH. done. }
  cbn [replace_all].
  destruct (Ascii.eqb_spec c ">") as [->|Hgt].
  { by rewrite IH. }
  by rewrite IH.
Qed.

Lemma occurs_app c s1 s2 : occurs c (s1 ++ s2) = occurs c s1 || occurs c s2.
Proof. induction s1 as [|d s1 IH]; simpl; [done | by rewrite IH, orb_assoc]. Qed.

Lemma escape_chars_no_angle s :
  occurs "<" (escape_chars s) = false /\ occurs ">" (escape_chars s) = false.
Proof.
  induction s as [|c s [IHl IHg]]; [done|].
  cbn [escape_chars]. rewrite !occurs_app, IHl, IHg, !orb_false_r.
  unfold escape_char.
  destruct (Ascii.eqb_spec c "&"); [done|].
  destruct (Ascii.eqb_spec c "<"); [done|].
  destruct (Ascii.eqb_spec c ">"); [done|].
  cbn [occurs]. rewrite !orb_false_r.
  split; apply Ascii.eqb_neq; congruence.
Qed.

Lemma unescape_escape_chars fuel s :
  (String.length (escape_chars s) <= fuel)%nat ->
  unescape fuel (escape_chars s) = s.
Proof.
  revert fuel. induction s as [|c s IH]; intros fuel Hfuel.
  - by destruct fuel.
  - cbn [escape_chars] in *. unfold escape_char in *.
    destruct (Ascii.eqb_spec c "&") as [->|Hamp].
    { destruct fuel as [|fuel]; [simpl in Hfuel; lia|].
      simpl. rewrite IH; [done | simpl in Hfuel; lia]. }
    destruct (Ascii.eqb_spec c "<") as [->|Hlt].
    { destruct fuel as [|fuel]; [simpl in Hfuel; lia|].
      simpl. rewrite IH; [done | simpl in Hfuel; lia]. }
    destruct (Ascii.eqb_spec c ">") as [->|Hgt].
    { destruct fuel as [|fuel]; [simpl in Hfuel; lia|].
      simpl. rewrite IH; [done | simpl in Hfuel; lia]. }
    destruct fuel as [|fuel]; [simpl in Hfuel; lia|].
    assert (Hrest : unescape fuel (escape_chars s) = s)
      by (apply IH; simpl in Hfuel; lia).
    change (String c "" ++ escape_chars s) with (String c (escape_chars s)).
    destruct c as [[] [] [] [] [] [] [] []]; try congruence;
      cbn [unescape]; by rewrite Hrest.
Qed.
End escapeHtml.

(** X17. [escapeHtml] leaves no raw angle bracket and escapes nothing
    twice: the result has no '<' and no '>', it is the text with each of
    '&', '<', '>' replaced once by its entity (the entity written for '<'
    is [&lt;], not [&amp;lt;]), and escaping a concatenation is
    concatenating the escapes. *)
Theorem escapeHtml_escapes_once (s1 s2 : string) :
  occurs "<" (escapeHtml s1) = false
  /\ occurs ">" (escapeHtml s1) = false
  /\ escapeHtml s1 = escape_chars s1
  /\ escapeHtml (s1 ++ s2) = (escapeHtml s1 ++ escapeHtml s2)%string.
Proof.
  rewrite !escapeHtml_escape_chars.
  destruct (escape_chars_no_angle s1) as [Hl Hg].
  split; [done|]. split; [done|]. split; [done|]. apply escape_chars_app.
Qed.

(** X18. [escapeHtml] loses nothing: two texts with the same escape are the
    same text (the entities can be read back). *)
Theorem escapeHtml_injective (s1 s2 : string) :
  escapeHtml s1 = escapeHtml s2 -> s1 = s2.
Proof.
  rewrite !escapeHtml_escape_chars. intros Heq.
  rewrite <- (unescape_escape_chars (String.length (escape_chars s1)) s1) by done.
  rewrite Heq. by apply unescape_escape_chars.
Qed.

Lemma escapeHtml_injective_witness :
  ("a<b&c" = "a<b&c")%string.
Proof. apply escapeHtml_injective. reflexivity. Defined.

Section isExcluded.
Variable sep : ascii.

Lemma split_nonempty s : split sep s <> [].
Proof.
  destruct s as [|c s]; [done|]. simpl.
  destruct (Ascii.eqb c sep); [done|]. by destruct (split sep s).
Qed.

(** A path joined with the separator splits into the pieces of both
    sides. *)
Lemma split_join dir name :
  split sep (path_join sep dir name) = split sep dir ++ split sep name.
Proof.
  unfold path_join. induction dir as [|c dir IH].
  - simpl. by rewrite Ascii.eqb_refl.
  - change (String c dir ++ String sep name)%string
      with (String c (dir ++ String sep name)%string).
    cbn [split]. rewrite IH.
    destruct (Ascii.eqb c sep); [done|].
    pose proof (split_nonempty dir). by destruct (split sep dir).
Qed.

(** No piece contains the separator. *)
Lemma split_no_sep s : Forall (fun piece => occurs sep piece = false) (split sep s).
Proof.
  induction s as [|c s IH]; [by repeat constructor|].
  cbn [split]. destruct (Ascii.eqb_spec c sep) as [->|Hne].
  - by constructor.
  - pose proof (split_nonempty s). destruct (split sep s) as [|piece pieces]; [done|].
    inversion IH as [|? ? Hpiece Hpieces]; subst. constructor; [|done].
    cbn [occurs]. rewrite Hpiece, orb_false_r. apply Ascii.eqb_neq. congruence.
Qed.

Lemma includes_no_sep s ex :
  occurs sep ex = true -> includes (split sep s) ex = false.
Proof.
  intros Hex. unfold includes.
  induction (split_no_sep s) as [|piece pieces Hpiece _ IH]; [done|].
  cbn [existsb]. rewrite IH, orb_false_r.
  apply String.eqb_neq. intros ->. congruence.
Qed.

Lemma includes_app l1 l2 x : includes (l1 ++ l2) x = includes l1 x || includes l2 x.
Proof. apply existsb_app. Qed.

Lemma isExcluded_join dir name :
  isExcluded sep (path_join sep dir name)
  = isExcluded sep dir || isExcluded sep name.
Proof.
  unfold isExcluded. rewrite split_join. unfold EXCLUDES. cbn [existsb].
  rewrite !includes_app.
  repeat destruct (includes _ _); done.
Qed.
End isExcluded.

(** X19. On POSIX paths the entry [public/build] of [EXCLUDES] is dead: a
    piece of a path split at "/" never contains a "/".  [isExcluded(p)]
    holds exactly when a piece of [p] is [node_modules], [vendor] or
    [.git]. *)
Theorem isExcluded_posix (p : string) :
  includes (split "/" p) "public/build" = false
  /\ isExcluded "/" p
     = existsb (fun ex => includes (split "/" p) ex)
         ["node_modules"; "vendor"; ".git"]%string.
Proof.
  assert (H : includes (split "/" p) "public/build" = false)
    by (by apply includes_no_sep).
  split; [exact H|].
  unfold isExcluded, EXCLUDES. cbn [existsb]. by rewrite H.
Qed.

(** X20. Exclusion passes down the tree: the path of an entry,
    [path.join(dir, name)], is excluded exactly when [dir] is excluded or
    [name] is; so everything below an excluded directory is excluded. *)
Theorem isExcluded_path_join (sep : ascii) (dir name : string) :
  isExcluded sep (path_join sep dir name)
  = isExcluded sep dir || isExcluded sep name.
Proof. apply isExcluded_join. Qed.

(** Induction on directory trees. *)
Lemma dirent_induction (P : dirent -> Prop) :
  (forall name, P (File name)) ->
  (forall name entries, Forall P entries -> P (Directory name entries)) ->
  (forall name, P (Other name)) ->
  forall e : dirent, P e.
Proof.
  intros HFile HDirectory HOther. fix IH 1.
  intros [name|name entries|name]; [apply HFile | | apply HOther].
  apply HDirectory. revert entries. fix IHentries 1.
  intros [|e entries]; constructor; [apply IH | apply IHentries].
Qed.

Lemma walk_entry_sound (sep : ascii) (e : dirent) :
  forall dir p, In p (walk_entry sep dir e) -> isExcluded sep p = false.
Proof.
  induction e as [name|name entries IH|name] using dirent_induction;
    intros dir p; cbn [walk_entry dirent_name];
    destruct (isExcluded sep (path_join sep dir name)) eqn:Hex; try done.
  - intros [<-|[]]. exact Hex.
  - intros (e' & He' & Hp)%in_flat_map.
    rewrite Forall_forall in IH. eapply (IH e'); [|exact Hp].
    by apply list_elem_of_In.
Qed.

Lemma walk_entry_excluded (sep : ascii) (dir : string) (e : dirent) :
  isExcluded sep dir = true -> walk_entry sep dir e = [].
Proof.
  intros Hdir. destruct e; cbn [walk_entry dirent_name];
    by rewrite isExcluded_join, Hdir.
Qed.

(** X21. [walk] returns no excluded path, and returns nothing at all when
    the directory it starts from is itself excluded: if the project lives
    below a directory named [node_modules], [vendor] or [.git], no file is
    collected. *)
Theorem walk_excludes (sep : ascii) (dir : string) (entries : list dirent) :
  (forall p, In p (walk sep dir entries) -> isExcluded sep p = false)
  /\ (isExcluded sep dir = true -> walk sep dir entries = []).
Proof.
  unfold walk. split.
  - intros p (e & _ & Hp)%in_flat_map. by eapply walk_entry_sound.
  - intros Hdir. induction entries as [|e entries IH]; [done|].
    cbn [flat_map]. by rewrite walk_entry_excluded, IH.
Qed.

Lemma walk_excludes_witness :
  walk "/" "/home/vendor/kineso" [File "a.js"; Directory "src" [File "b.js"]] = [].
Proof.
  destruct (walk_excludes "/" "/home/vendor/kineso"
              [File "a.js"; Directory "src" [File "b.js"]]) as [_ H].
  apply H. reflexivity.
Defined.

Section str_includes.
Local Open Scope string_scope.

Lemma starts_with_app pre rest : starts_with pre (pre ++ rest) = true.
Proof. induction pre as [|c pre IH]; simpl; [done | by rewrite Ascii.eqb_refl]. Qed.

Lemma str_includes_app before sub rest :
  str_includes (before ++ sub ++ rest) sub = true.
Proof.
  induction before as [|c before IH].
  - change ("" ++ sub ++ rest) with (sub ++ rest).
    pose proof (starts_with_app sub rest) as H.
    destruct (sub ++ rest); cbn [str_includes]; by rewrite H.
  - change (String c before ++ sub ++ rest) with (String c (before ++ sub ++ rest)).
    cbn [str_includes]. rewrite IH. apply orb_true_r.
Qed.

Lemma str_includes_prefix sub rest : str_includes (sub ++ rest) sub = true.
Proof. apply (str_includes_app "" sub rest). Qed.
End str_includes.

(** X22. The filter that follows [walk] tests substrings, not path pieces:
    it drops every path that goes on from ROOT/node_modules, ROOT/vendor or
    ROOT/public/build, whatever follows.  So a file below ROOT/public/build,
    which [isExcluded] lets through, is dropped here, and so is a file of a
    directory whose name merely begins with [vendor] or [node_modules]
    (ROOT/vendors/a.css), which [walk] has collected. *)
Theorem kept_drops_by_substring (sep : ascii) (ROOT rest : string) :
  kept sep ROOT (path_join sep ROOT "node_modules" ++ rest) = false
  /\ kept sep ROOT (path_join sep ROOT "vendor" ++ rest) = false
  /\ kept sep ROOT (path_join sep (path_join sep ROOT "public") "build" ++ rest)
     = false.
Proof.
  unfold kept. rewrite !str_includes_prefix.
  by rewrite !andb_false_r.
Qed.

(** An array has a number at every index below [N], or lacks one at some
    index below [N]. *)
Lemma numbers_upto_dec (N : nat) (a : array) :
  numbers_upto N a \/ exists k, (k < N)%nat /\ get a (Z.of_nat k) = Undefined.
Proof.
  induction N as [|N [IH|(k & Hk & Hbad)]].
  - left. intros k Hk. lia.
  - destruct (get a (Z.of_nat N)) as [|x] eqn:HN.
    + right. exists N. split; [lia | done].
    + left. intros k Hk. destruct (decide (k = N)) as [->|]; [|apply IH; lia].
      exists x. revert HN. unfold get.
      destruct (Z.ltb_spec (Z.of_nat N) 0); [done|]. rewrite Nat2Z.id.
      destruct (a !! N) as [[|y]|]; simpl; congruence.
  - right. exists k. split; [lia | done].
Qed.

Section csv_throws.
Variables times xs vs as_ : array.

Lemma csv_loop_None c i :
  for_count c i (fun k lines =>
    let i := Z.of_nat k in
    ls ← lines;
    t ← value_toFixed (get times i) 6;
    x ← value_toFixed (get xs i) 6;
    v ← value_toFixed (get vs i) 6;
    a ← value_toFixed (get as_ i) 6;
    Some (ls ++ [[t; x; v; a]])) None = None.
Proof. revert i. induction c as [|c IH]; intros i; [done | apply IH]. Qed.

Lemma csv_loop_throws c i (acc : list (list string)) k :
  (i <= k < i + c)%nat ->
  get times (Z.of_nat k) = Undefined \/ get xs (Z.of_nat k) = Undefined
  \/ get vs (Z.of_nat k) = Undefined \/ get as_ (Z.of_nat k) = Undefined ->
  for_count c i (fun k lines =>
    let i := Z.of_nat k in
    ls ← lines;
    t ← value_toFixed (get times i) 6;
    x ← value_toFixed (get xs i) 6;
    v ← value_toFixed (get vs i) 6;
    a ← value_toFixed (get as_ i) 6;
    Some (ls ++ [[t; x; v; a]])) (Some acc) = None.
Proof.
  revert i acc. induction c as [|c IH]; intros i acc Hk Hbad; [lia|].
  cbn [for_count]. destruct (decide (k = i)) as [->|Hne].
  - cbn [mbind option_bind].
    destruct Hbad as [-> | [-> | [-> | ->]]];
      cbn [value_toFixed mbind option_bind];
      repeat (destruct (value_toFixed (get _ _) _);
              cbn [value_toFixed mbind option_bind]);
      apply csv_loop_None.
  - cbn [mbind option_bind].
    repeat (destruct (value_toFixed _ _); cbn [mbind option_bind]);
      try apply csv_loop_None.
    apply IH; [lia | done].
Qed.
End csv_throws.

(** X23. [csvFromData] throws exactly when a [toFixed] meets [undefined]:
    it fails if and only if, at some index below [times.length], one of the
    four arrays has no number (it is shorter, or has a hole there).  Samples
    of [xs], [vs], [as] at or past [times.length] are never read. *)
Theorem csvFromData_throws_iff (times xs vs as_ : array) :
  csvFromData times xs vs as_ = None
  <-> exists k, (k < length times)%nat
        /\ (get times (Z.of_nat k) = Undefined \/ get xs (Z.of_nat k) = Undefined
            \/ get vs (Z.of_nat k) = Undefined \/ get as_ (Z.of_nat k) = Undefined).
Proof.
  split.
  - intros Hnone.
    destruct (numbers_upto_dec (length times) times) as [Ht|(k & Hk & Hb)];
      [|exists k; tauto].
    destruct (numbers_upto_dec (length times) xs) as [Hx|(k & Hk & Hb)];
      [|exists k; tauto].
    destruct (numbers_upto_dec (length times) vs) as [Hv|(k & Hk & Hb)];
      [|exists k; tauto].
    destruct (numbers_upto_dec (length times) as_) as [Ha|(k & Hk & Hb)];
      [|exists k; tauto].
    exfalso. revert Hnone. unfold csvFromData.
    by rewrite csv_lines_numbers.
  - intros (k & Hk & Hbad).
    assert (Hlines : csv_lines times xs vs as_ = None).
    { unfold csv_lines, for_range. rewrite Nat.sub_0_r.
      apply (csv_loop_throws times xs vs as_ (length times) 0 [csv_header] k);
        [lia | done]. }
    unfold csvFromData. by rewrite Hlines.
Qed.

Lemma csvFromData_throws_iff_witness :
  csvFromData [Num 0; Num 1]%float [Num 0]%float [Num 5; Num 6]%float
    [Num 2; Num 2]%float = None.
Proof.
  apply csvFromData_throws_iff. exists 1%nat. split; [simpl; lia|].
  right. left. reflexivity.
Defined.
